(** * lit-watch: the watcher factory of [lib/createWatcher.ts]

    A shallow embedding of [createWatcher]: the state that one application of
    the property decorator creates (subscriber registry, current derived value,
    deferred recomputation), the handler subscribed to the source, the accessor
    installed on the host prototype and the wrapped lifecycle hooks.

    JavaScript closures are defunctionalised: a closure is the data it captured
    plus, where the code compares closures with [!==], the identity of the
    function object.  Calls that leave the module (the selection function, the
    host's [requestUpdate], the lifecycle hooks found on the prototype) are
    recorded in a trace, in call order; they are taken to return, and not to
    call back into the watcher while they run.

    The accessor and the connect hook of the older copy of the module,
    [src/index.ts], are embedded next to the ones of [lib/createWatcher.ts],
    under names that start with [index_]. *)

From Stdlib Require Import String Ascii.
From stdpp Require Import base decidable option list gmap.

(** ** Identities *)

(** [PropertyKey]: the name of the decorated member. *)
Abbreviation PropertyKey := string (only parsing).
(** A host object ([this] / [ctx] in the lifecycle hooks). *)
Abbreviation Host := nat (only parsing).
(** The identity of a function object, as [!==] sees it. *)
Abbreviation FunctionRef := nat (only parsing).

(** The subscriber built by the connect hook,
    [(previousValue) => { ctx.requestUpdate(key, previousValue); }]:
    a fresh function object that captured [ctx]. *)
Record Subscriber := {
  sub_ref : FunctionRef;
  sub_ctx : Host
}.

(** The function returned by [subscribe]; it captured [subscriber]. *)
Inductive Handle :=
| Unsubscribe (subscriber : Subscriber).

(** The values that flow through the watcher.  [createWatcher] is generic in
    the observable and in the selector; after type erasure snapshots and derived
    values are plain JavaScript values, among them [undefined], and the watcher
    does nothing with them but compare them with [!==]. *)
Class JsValues (Value : Type) := {
  undefined : Value;
  strict_eq : Value → Value → bool   (* a === b *)
}.

Section Watcher.

Context `{JsValues Value}.

(** [a !== b] *)
Definition strict_neq (a b : Value) : bool := negb (strict_eq a b).

(** Calls leaving the module. *)
Inductive Event :=
| EvSelector (value : Value)
    (* maybeSelector(value) *)
| EvRequestUpdate (ctx : Host) (name : PropertyKey) (oldValue : Value)
    (* ctx.requestUpdate(key, previousValue) *)
| EvConnect (ctx : Host)
    (* connect.call(this), the hook found on the prototype *)
| EvDisconnect (ctx : Host).
    (* disconnect.call(this) *)

(** What [Object.getOwnPropertyDescriptor(ctx, key)] finds on an instance,
    for the instances the runs are about: extensible objects whose own
    property under the key, when they have one, is a configurable data
    property (as the ones a class field creates) or the accessor
    [configureSetter] defined.  An own getter from elsewhere, which the guard
    of the connect hook would leave in place, and own properties that are not
    configurable, on which [Object.defineProperty] throws, are not among them;
    [defineProperty_returns] below has the rule of [Object.defineProperty]. *)
Inductive OwnProperty :=
| DataProperty (value : Value)
| AccessorProperty.

(** The variables closed over by [watchDecorator] ([subscribers],
    [currentValue], [thunk]), the per-instance state it reaches through [ctx]
    (the slot [ctx[subscriptionKey]], the own property [key]), the next unused
    function identity and the trace. *)
Record World := {
  subscribers : list Subscriber;
  currentValue : Value;
  thunk : option Value;
  subscription : gmap nat Handle;
  own_property : gmap nat OwnProperty;
  next_ref : nat;
  trace : list Event
}.

Definition set_subscribers (l : list Subscriber) (w : World) : World :=
  {| subscribers := l; currentValue := currentValue w; thunk := thunk w;
     subscription := subscription w; own_property := own_property w;
     next_ref := next_ref w; trace := trace w |}.

Definition set_currentValue (v : Value) (w : World) : World :=
  {| subscribers := subscribers w; currentValue := v; thunk := thunk w;
     subscription := subscription w; own_property := own_property w;
     next_ref := next_ref w; trace := trace w |}.

Definition set_thunk (t : option Value) (w : World) : World :=
  {| subscribers := subscribers w; currentValue := currentValue w; thunk := t;
     subscription := subscription w; own_property := own_property w;
     next_ref := next_ref w; trace := trace w |}.

Definition set_subscription (m : gmap nat Handle) (w : World) : World :=
  {| subscribers := subscribers w; currentValue := currentValue w;
     thunk := thunk w; subscription := m; own_property := own_property w;
     next_ref := next_ref w; trace := trace w |}.

Definition set_own_property (m : gmap nat OwnProperty) (w : World) : World :=
  {| subscribers := subscribers w; currentValue := currentValue w;
     thunk := thunk w; subscription := subscription w; own_property := m;
     next_ref := next_ref w; trace := trace w |}.

Definition set_next_ref (n : nat) (w : World) : World :=
  {| subscribers := subscribers w; currentValue := currentValue w;
     thunk := thunk w; subscription := subscription w;
     own_property := own_property w; next_ref := n; trace := trace w |}.

(** Append one call to the trace. *)
Definition emit (e : Event) (w : World) : World :=
  {| subscribers := subscribers w; currentValue := currentValue w;
     thunk := thunk w; subscription := subscription w;
     own_property := own_property w; next_ref := next_ref w;
     trace := trace w ++ [e] |}.

(** [let subscribers = []; let currentValue; let thunk;] and no instance yet. *)
Definition initial : World :=
  {| subscribers := []; currentValue := undefined; thunk := None;
     subscription := ∅; own_property := ∅; next_ref := 0; trace := [] |}.

(** ** The subscribe / unsubscribe mechanism *)

(** [subscribers.push(subscriber); return () => {...};] *)
Definition subscribe (subscriber : Subscriber) (w : World) : Handle * World :=
  (Unsubscribe subscriber,
   set_subscribers (subscribers w ++ [subscriber]) w).

(** [subscribers.filter((item) => item !== subscriber)] *)
Definition without (subscriber : Subscriber) (l : list Subscriber)
  : list Subscriber :=
  filter (λ item, sub_ref item ≠ sub_ref subscriber) l.

(** Calling the function [subscribe] returned:
    [subscribers = subscribers.filter((item) => item !== subscriber);] *)
Definition call_handle (h : Handle) (w : World) : World :=
  match h with
  | Unsubscribe subscriber =>
      set_subscribers (without subscriber (subscribers w)) w
  end.

(** [ctx[subscriptionKey]?.()] *)
Definition call_subscription (ctx : Host) (w : World) : World :=
  match subscription w !! ctx with
  | Some h => call_handle h w
  | None => w
  end.

(** One application of the decorator: the optional selector and the key of
    the decorated member. *)
Record Decoration := {
  selector : option (Value → Value);
  key : PropertyKey
}.

(** The prototype being patched: whether [prototype.connectedCallback] and
    [prototype.disconnectedCallback] existed ([const connect], [const
    disconnect]). *)
Record Prototype := {
  connect : bool;
  disconnect : bool
}.

Section Decorated.

Variable d : Decoration.
Variable p : Prototype.

(** [const maybeSelector = selector ?? ((value) => value);] *)
Definition maybeSelector : Value → Value :=
  match selector d with
  | Some f => f
  | None => λ value, value
  end.

(** A call of [maybeSelector], recorded. *)
Definition call_selector (value : Value) (w : World) : Value * World :=
  (maybeSelector value, emit (EvSelector value) w).

(** The thunk body, for the captured [value]:
    [currentValue = maybeSelector(value); thunk = undefined;] *)
Definition thunk_body (value : Value) (w : World) : World :=
  let (v, w) := call_selector value w in
  set_thunk None (set_currentValue v w).

(** [thunk?.()] *)
Definition call_thunk (w : World) : World :=
  match thunk w with
  | Some value => thunk_body value w
  | None => w
  end.

(** A subscriber called with the previous value. *)
Definition notify (previousValue : Value) (w : World) (notifier : Subscriber)
  : World :=
  emit (EvRequestUpdate (sub_ctx notifier) (key d) previousValue) w.

(** The observer passed to [from(observable).subscribe]. *)
Definition next (value : Value) (w : World) : World :=
  if decide (length (subscribers w) = 0) then
    set_thunk (Some value) w
  else
    let (nextValue, w) := call_selector value w in
    if strict_neq (currentValue w) nextValue then
      let previousValue := currentValue w in
      let w := set_currentValue nextValue w in
      foldl (notify previousValue) w (subscribers w)
    else w.

(** The [get] of the descriptor [configureSetter] defines. *)
Definition getter (w : World) : Value * World :=
  let w := call_thunk w in
  (currentValue w, w).

(** [configureSetter(ctx)]: [Object.defineProperty(ctx, key, { get })], which
    returns on the instances above. *)
Definition configureSetter (target : Host) (w : World) : World :=
  set_own_property (<[target := AccessorProperty]> (own_property w)) w.

(** [typeof Object.getOwnPropertyDescriptor(ctx, key)?.get === 'function'],
    on the own properties above. *)
Definition has_own_getter (ctx : Host) (w : World) : bool :=
  match own_property w !! ctx with
  | Some AccessorProperty => true
  | Some (DataProperty _) => false
  | None => false
  end.

(** Reading [instance[key]] once the prototype is patched: an own data property
    shadows the prototype's accessor, otherwise the getter runs. *)
Definition read (ctx : Host) (w : World) : Value * World :=
  match own_property w !! ctx with
  | Some (DataProperty value) => (value, w)
  | Some AccessorProperty => getter w
  | None => getter w
  end.

(** [connect?.call(this)] / [disconnect?.call(this)] *)
Definition call_existing (present : bool) (e : Event) (w : World) : World :=
  if present then emit e w else w.

(** The replacement of [prototype.connectedCallback]. *)
Definition connectedCallback (this : Host) (w : World) : World :=
  let w := call_existing (connect p) (EvConnect this) w in
  let ctx := this in
  let w := if has_own_getter ctx w then w else configureSetter ctx w in
  let w := call_subscription ctx w in
  let subscriber := {| sub_ref := next_ref w; sub_ctx := ctx |} in
  let w := set_next_ref (S (next_ref w)) w in
  let (h, w) := subscribe subscriber w in
  set_subscription (<[ctx := h]> (subscription w)) w.

(** The replacement of [prototype.disconnectedCallback]. *)
Definition disconnectedCallback (this : Host) (w : World) : World :=
  let ctx := this in
  let w := call_subscription ctx w in
  call_existing (disconnect p) (EvDisconnect this) w.

(** ** The earlier wiring kept in [src/index.ts]

    Same closure state, subscribe mechanism and observer.  The accessor only
    returns [currentValue]; the thunk is run by the connect hook, which does
    not repair the property descriptor. *)

(** The [get] of the descriptor [patchPrototypeWithWatcher] defines there. *)
Definition index_getter (w : World) : Value * World :=
  (currentValue w, w).

Definition index_read (ctx : Host) (w : World) : Value * World :=
  match own_property w !! ctx with
  | Some (DataProperty value) => (value, w)
  | Some AccessorProperty => index_getter w
  | None => index_getter w
  end.

(** The replacement of [prototype.connectedCallback] there. *)
Definition index_connectedCallback (this : Host) (w : World) : World :=
  let w := call_existing (connect p) (EvConnect this) w in
  let ctx := this in
  let w := call_thunk w in
  let w := call_subscription ctx w in
  let subscriber := {| sub_ref := next_ref w; sub_ctx := ctx |} in
  let w := set_next_ref (S (next_ref w)) w in
  let (h, w) := subscribe subscriber w in
  set_subscription (<[ctx := h]> (subscription w)) w.

(** ** Runs: what the source and the host do to one binding *)

Inductive Action :=
| Push (value : Value)          (* the source emits *)
| Connect (ctx : Host)      (* ctx.connectedCallback() *)
| Disconnect (ctx : Host)   (* ctx.disconnectedCallback() *)
| Read (ctx : Host).        (* ctx[key] *)

Definition step (a : Action) (w : World) : World :=
  match a with
  | Push value => next value w
  | Connect ctx => connectedCallback ctx w
  | Disconnect ctx => disconnectedCallback ctx w
  | Read ctx => (read ctx w).2
  end.

Fixpoint run (actions : list Action) (w : World) : World :=
  match actions with
  | [] => w
  | a :: actions => run actions (step a w)
  end.

Definition index_step (a : Action) (w : World) : World :=
  match a with
  | Push value => next value w
  | Connect ctx => index_connectedCallback ctx w
  | Disconnect ctx => disconnectedCallback ctx w
  | Read ctx => (index_read ctx w).2
  end.

Fixpoint index_run (actions : list Action) (w : World) : World :=
  match actions with
  | [] => w
  | a :: actions => index_run actions (index_step a w)
  end.

Definition is_push (a : Action) : bool :=
  match a with
  | Push _ => true
  | _ => false
  end.

(** ** The source *)

Inductive Source :=
| StreamLike (replayed : list Value)
| StoreLike (getState : Value).

(** Modelled from the spec: [from] of rxjs and the observable a store hands
    out are not part of the repository.  Subscribing to a store-like source
    delivers its current snapshot at once; a stream-like source delivers only
    what the stream itself replays (nothing for a plain subject). *)
Definition emitted_on_subscribe (observable : Source) : list Value :=
  match observable with
  | StreamLike replayed => replayed
  | StoreLike getState => [getState]
  end.

(** [from(observable).subscribe(next)], run when the decorator is applied:
    the closure state after the values delivered during the call. *)
Definition from_subscribe (observable : Source) : World :=
  foldl (λ w value, next value w) initial (emitted_on_subscribe observable).

End Decorated.

(** ** The decorator call *)

Inductive ElementKind := KindField | KindMethod.
Inductive Placement := PlacementStatic | PlacementPrototype | PlacementOwn.

(** A [PropertyDescriptor]; a field is [Some] exactly when the key is [in] the
    descriptor. *)
Record PropertyDescriptor := {
  desc_value : option Value;
  desc_get : option FunctionRef;
  desc_set : option FunctionRef;
  desc_writable : option bool;
  desc_enumerable : option bool;
  desc_configurable : option bool
}.

(** [ClassElement] of the decorators proposal ([extras] and [finisher] are not
    read by the decorator). *)
Record ClassElement := {
  el_kind : ElementKind;
  el_key : PropertyKey;
  el_placement : Placement;
  el_initializer : option FunctionRef;
  el_descriptor : option PropertyDescriptor
}.

(** A prototype, as far as [patchPrototypeWithWatcher] can fail on it: its
    own property under the key, when it has one; whether it is extensible; and
    whether the assignments [prototype.connectedCallback = ...] and
    [prototype.disconnectedCallback = ...] return rather than throw (as an
    assignment does, in strict code, to a property that cannot be written). *)
Record PatchTarget := {
  own_descriptor : option PropertyDescriptor;
  extensible : bool;
  connectedCallback_assignable : bool;
  disconnectedCallback_assignable : bool
}.

(** [Object.defineProperty(target, key, { configurable: false, enumerable:
    true, get })], [get] being a function made for the call.  It returns when
    the target has no own property under the key and is extensible, or has a
    configurable one.  It throws a [TypeError] otherwise: a property that is
    not configurable can neither turn from a data property into an accessor
    nor, as an accessor, be given another getter. *)
Definition defineProperty_returns (target : PatchTarget) : bool :=
  match own_descriptor target with
  | None => extensible target
  | Some descriptor =>
      match desc_configurable descriptor with
      | Some true => true
      | Some false => false
      | None => false
      end
  end.

(** The property the call leaves on the target when it returns: an accessor
    with the getter passed, enumerable and not configurable; a setter is there
    only when the target had an accessor with one before, which the call, that
    passes no [set], keeps. *)
Definition watcher_descriptor (get : FunctionRef) (set : option FunctionRef)
  : PropertyDescriptor :=
  {| desc_value := None;
     desc_get := Some get;
     desc_set := set;
     desc_writable := None;
     desc_enumerable := Some true;
     desc_configurable := Some false |}.

(** Whether [patchPrototypeWithWatcher(prototype, key)] returns:
    [configureSetter(prototype)], then the two assignments of the hooks. *)
Definition patch_returns (prototype : PatchTarget) : bool :=
  defineProperty_returns prototype
  && connectedCallback_assignable prototype
  && disconnectedCallback_assignable prototype.

(** The prototype after [patchPrototypeWithWatcher] has returned, [get]
    being the getter [configureSetter] made. *)
Definition patched (get : FunctionRef) (prototype : PatchTarget)
  : PatchTarget :=
  {| own_descriptor :=
       Some (watcher_descriptor get (own_descriptor prototype ≫= desc_set));
     extensible := extensible prototype;
     connectedCallback_assignable := connectedCallback_assignable prototype;
     disconnectedCallback_assignable :=
       disconnectedCallback_assignable prototype |}.

(** The two ways the decorator is called. *)
Inductive DecoratorCall :=
| Proposal (classElement : ClassElement)
    (* propertyKey === undefined *)
| Legacy (prototype : PatchTarget) (propertyKey : PropertyKey).
    (* target is the prototype *)

(** How the call completes.  [Throw]: the [Error] of the accessor guard.
    [ReturnElement]: the element descriptor of the proposal branch, whose
    finisher patches the class prototype for [finisher_key] and whose
    initializer calls [initializer] when it is a function.  [ReturnPatched]:
    the legacy branch patched the prototype for [patched_key] and returned
    [undefined].  [ThrowTypeError]: [patchPrototypeWithWatcher] threw in the
    legacy branch. *)
Inductive Completion :=
| Throw (message : string)
| ReturnElement (finisher_key : PropertyKey) (initializer : option FunctionRef)
    (kind : ElementKind) (placement : Placement)
| ReturnPatched (patched_key : PropertyKey)
| ThrowTypeError.

Definition quote : string := String (ascii_of_nat 34) EmptyString.

(** [`Unable to decorate an accessor ("${String(classElement.key)}")`] *)
Definition accessor_message (k : PropertyKey) : string :=
  ("Unable to decorate an accessor (" ++ quote ++ k ++ quote ++ ")")%string.

(** [classElement.kind === 'method' && classElement.descriptor !== undefined
     && !('value' in classElement.descriptor)] *)
Definition is_accessor_element (classElement : ClassElement) : bool :=
  match el_kind classElement, el_descriptor classElement with
  | KindMethod, Some descriptor =>
      match desc_value descriptor with
      | Some _ => false
      | None => true
      end
  | _, _ => false
  end.

Definition call_key (call : DecoratorCall) : PropertyKey :=
  match call with
  | Proposal classElement => el_key classElement
  | Legacy _ propertyKey => propertyKey
  end.

(** [watchDecorator(target, propertyKey)] for [createWatcher(observable)] and
    [selector]: the closure state after the source was subscribed to, and how
    the call completes. *)
Definition watchDecorator (observable : Source)
    (selector : option (Value → Value)) (call : DecoratorCall)
  : World * Completion :=
  let d := {| selector := selector; key := call_key call |} in
  let w := from_subscribe d observable in
  match call with
  | Proposal classElement =>
      if is_accessor_element classElement then
        (w, Throw (accessor_message (el_key classElement)))
      else
        (w, ReturnElement (el_key classElement) (el_initializer classElement)
              KindField PlacementOwn)
  | Legacy prototype propertyKey =>
      if patch_returns prototype then (w, ReturnPatched propertyKey)
      else (w, ThrowTypeError)
  end.

End Watcher.

Arguments Event Value : clear implicits.
Arguments OwnProperty Value : clear implicits.
Arguments World Value : clear implicits.
Arguments Decoration Value : clear implicits.
Arguments Action Value : clear implicits.
Arguments Source Value : clear implicits.
Arguments PropertyDescriptor Value : clear implicits.
Arguments ClassElement Value : clear implicits.
Arguments DecoratorCall Value : clear implicits.
Arguments PatchTarget Value : clear implicits.

(** ** The values of the repository's tests

    [undefined], strings (compared by content) and objects or arrays (compared
    by address), with [===] on them. *)

Inductive TestValue :=
| Undefined
| Text (s : string)
| Object (address : nat).

#[export] Instance TestValue_eq_dec : EqDecision TestValue.
Proof. solve_decision. Defined.

#[export] Instance test_values : JsValues TestValue :=
  {| undefined := Undefined; strict_eq a b := bool_decide (a = b) |}.

(** The decoration of the tests' [@observe() public complete] and a host
    class that, like the tests' [Mount], defines both lifecycle hooks. *)
Definition test_decoration : Decoration TestValue :=
  {| selector := None; key := "complete" |}.

Definition test_prototype : Prototype :=
  {| connect := true; disconnect := true |}.

(** A value is emitted before the instance is constructed (and connected),
    another one after, and nothing reads the property in between. *)
Definition emit_connect_emit : list (Action TestValue) :=
  [Push (Object 1); Connect 0; Push (Object 2)].

(** The same with a read after the connect. *)
Definition emit_connect_read_emit : list (Action TestValue) :=
  [Push (Object 1); Connect 0; Read 0; Push (Object 2)].

(** As [emit_connect_emit] with a second instance, and the first one
    disconnected before the second emission. *)
Definition emit_after_disconnect : list (Action TestValue) :=
  [Push (Object 1); Connect 0; Connect 1; Disconnect 0; Push (Object 2)].

(** Two instances connect after a first emission and one of them reads the
    property before the second emission; then the other one disconnects. *)
Definition emit_read_emit_disconnect : list (Action TestValue) :=
  [Push (Object 1); Connect 0; Connect 1; Read 1; Push (Object 2);
   Disconnect 0].

(** An instance connects and disconnects, then the source emits. *)
Definition emit_when_disconnected : list (Action TestValue) :=
  [Connect 0; Disconnect 0; Push (Object 1)].

(** A class prototype that does not have the decorated member as a property
    of its own, open to definitions and assignments. *)
Definition plain_prototype : PatchTarget TestValue :=
  {| own_descriptor := None;
     extensible := true;
     connectedCallback_assignable := true;
     disconnectedCallback_assignable := true |}.

(** The class element of a method [render() {...}]: kind method, a data
    descriptor whose [value] is the function. *)
Definition method_element : ClassElement TestValue :=
  {| el_kind := KindMethod;
     el_key := "render";
     el_placement := PlacementPrototype;
     el_initializer := None;
     el_descriptor :=
       Some {| desc_value := Some (Object 7);
               desc_get := None;
               desc_set := None;
               desc_writable := Some true;
               desc_enumerable := Some false;
               desc_configurable := Some true |} |}.

(** How many [requestUpdate] calls a trace holds for one instance. *)
Definition is_request_for {Value} (ctx : Host) (e : Event Value)
  : bool :=
  match e with
  | EvRequestUpdate ctx' _ _ => bool_decide (ctx' = ctx)
  | _ => false
  end.

Definition requests_for {Value} (ctx : Host) (t : list (Event Value))
  : nat :=
  length (List.filter (is_request_for ctx) t).

(** How many selector calls a trace holds. *)
Definition is_selection {Value} (e : Event Value) : bool :=
  match e with
  | EvSelector _ => true
  | _ => false
  end.

Definition selections {Value} (t : list (Event Value)) : nat :=
  length (List.filter is_selection t).

(** The subscribers of one instance in the registry. *)
Definition registered (ctx : Host) (l : list Subscriber)
  : list Subscriber :=
  filter (λ item, sub_ctx item = ctx) l.

(** What the connect hook maintains: function identities in the registry are
    ones already handed out and pairwise distinct, and every registered
    subscriber is the one whose handle sits in its instance's slot. *)
Definition registry_wf {Value} (w : World Value) : Prop :=
  Forall (λ s, sub_ref s < next_ref w) (subscribers w)
  ∧ NoDup (sub_ref <$> subscribers w)
  ∧ Forall (λ s, subscription w !! sub_ctx s = Some (Unsubscribe s))
      (subscribers w).

(** No instance has a data property of its own under the decorated key. *)
Definition no_own_data {Value} (w : World Value) : Prop :=
  ∀ ctx value, own_property w !! ctx ≠ Some (DataProperty value).

(** The binding holds [state], computed or still deferred. *)
Definition seeded {Value} (state : Value) (w : World Value) : Prop :=
  thunk w = Some state ∨ (thunk w = None ∧ currentValue w = state).

(** The snapshot pushed last, [o] when the run has no push. *)
Definition last_pushed {Value} (o : option Value)
    (actions : list (Action Value)) : option Value :=
  foldl (λ o a, match a with Push value => Some value | _ => o end) o actions.

(** A push is safe when it does not find both a subscriber registered and a
    thunk pending; a run is safe when all its pushes are. *)
Definition safe_push {Value} (a : Action Value) (w : World Value) : bool :=
  match a, thunk w, subscribers w with
  | Push _, Some _, _ :: _ => false
  | _, _, _ => true
  end.

Fixpoint thunk_never_stale `{JsValues Value} (d : Decoration Value)
    (p : Prototype) (actions : list (Action Value)) (w : World Value) : bool :=
  match actions with
  | [] => true
  | a :: actions =>
      safe_push a w && thunk_never_stale d p actions (step d p a w)
  end.

(** The binding stands for the snapshot [latest]: deferred in the thunk, or
    selected into [currentValue] (or found [===] to what was there). *)
Definition reflects `{JsValues Value} (d : Decoration Value) (latest : Value)
    (w : World Value) : Prop :=
  match thunk w with
  | Some value => value = latest
  | None =>
      currentValue w = maybeSelector d latest
      ∨ strict_eq (currentValue w) (maybeSelector d latest) = true
  end.

Definition is_connect_of {Value} (ctx : Host) (a : Action Value) : bool :=
  match a with
  | Connect ctx' => bool_decide (ctx' = ctx)
  | _ => false
  end.

(** ** The lifecycle, seen from outside *)

(** The instances whose last lifecycle call was the connect hook, in the order
    of those calls. *)
Definition hosts_step {Value} (hosts : list Host) (a : Action Value)
  : list Host :=
  match a with
  | Connect ctx => filter (λ c, c ≠ ctx) hosts ++ [ctx]
  | Disconnect ctx => filter (λ c, c ≠ ctx) hosts
  | _ => hosts
  end.

Definition connected_hosts {Value} (actions : list (Action Value))
  : list Host :=
  foldl hosts_step [] actions.

(** How many snapshots a run pushes. *)
Definition pushes {Value} (actions : list (Action Value)) : nat :=
  length (List.filter is_push actions).

(** The handles kept in the slots: made of identities already handed out, and
    no two slots hold a handle for the same function. *)
Definition slots_wf {Value} (w : World Value) : Prop :=
  (∀ i s, subscription w !! i = Some (Unsubscribe s) → sub_ref s < next_ref w)
  ∧ (∀ i j s t,
       subscription w !! i = Some (Unsubscribe s) →
       subscription w !! j = Some (Unsubscribe t) →
       sub_ref s = sub_ref t → i = j).

(** In [src/index.ts]: a thunk is pending only over an empty registry, and
    then holds the snapshot pushed last; with no thunk pending [currentValue]
    stands for that snapshot. *)
Definition index_settled `{JsValues Value} (d : Decoration Value)
    (o : option Value) (w : World Value) : Prop :=
  match thunk w with
  | Some value => subscribers w = [] ∧ o = Some value
  | None =>
      from_option
        (λ latest, currentValue w = maybeSelector d latest
                   ∨ strict_eq (currentValue w) (maybeSelector d latest) = true)
        True o
  end.

(** Every push of the run comes after a read that follows the last connect
    before it ([dirty]: a connect has happened and no read since). *)
Fixpoint read_precedes_push {Value} (dirty : bool)
    (actions : list (Action Value)) : bool :=
  match actions with
  | [] => true
  | Push _ :: actions => negb dirty && read_precedes_push false actions
  | Connect _ :: actions => read_precedes_push true actions
  | Disconnect _ :: actions => read_precedes_push dirty actions
  | Read _ :: actions => read_precedes_push false actions
  end.

(** One when a thunk is pending. *)
Definition pending {Value} (w : World Value) : nat :=
  match thunk w with
  | Some _ => 1
  | None => 0
  end.

(** * Properties *)

Section Properties.

Context `{JsValues Value}.

Implicit Types (w : World Value) (d : Decoration Value) (p : Prototype).
Implicit Types (value : Value) (subscriber : Subscriber) (ctx : nat).

(** ** The registry *)

Lemma without_spec subscriber (l : list Subscriber) item :
  item ∈ without subscriber l ↔
  item ∈ l ∧ sub_ref item ≠ sub_ref subscriber.
Proof.
  unfold without. rewrite list_elem_of_filter. tauto.
Qed.

Lemma without_twice subscriber (l : list Subscriber) :
  without subscriber (without subscriber l) = without subscriber l.
Proof.
  unfold without. induction l as [|x l IH]; [done|].
  rewrite filter_cons. case_decide as Hx.
  - rewrite filter_cons_True by done. by rewrite IH.
  - done.
Qed.

Lemma without_absent subscriber (l : list Subscriber) :
  Forall (λ x, sub_ref x ≠ sub_ref subscriber) l →
  without subscriber l = l.
Proof.
  unfold without. induction 1 as [|x l Hx _ IH]; [done|].
  rewrite filter_cons_True by done. by rewrite IH.
Qed.

Lemma without_self subscriber before after :
  Forall (λ x, sub_ref x ≠ sub_ref subscriber) (before ++ after) →
  without subscriber (before ++ subscriber :: after) = before ++ after.
Proof.
  intros [Hb Ha]%Forall_app. unfold without.
  rewrite filter_app, filter_cons_False by (intros Hne; by apply Hne).
  fold (without subscriber before) (without subscriber after).
  by rewrite !without_absent.
Qed.

Lemma call_handle_iter subscriber w n :
  Nat.iter (S n) (call_handle (Unsubscribe subscriber)) w =
  set_subscribers (without subscriber (subscribers w)) w.
Proof.
  induction n as [|n IH]; [done|].
  change (Nat.iter (S (S n)) ?f w) with (f (Nat.iter (S n) f w)).
  rewrite IH. unfold call_handle, set_subscribers; simpl.
  by rewrite without_twice.
Qed.

(** C10.  The function [subscribe] returns for [subscriber], called once or
    any number of times more on whatever the registry has become, leaves the
    registry filtered of [subscriber]: the items left are exactly the other
    items, in their order; when [subscriber] stood in the registry once, the
    result is the registry with that entry taken out; nothing else of the
    state changes. *)
Theorem unsubscribe_idempotent_isolated subscriber w0 w n :
  let h := (subscribe subscriber w0).1 in
  let w' := Nat.iter (S n) (call_handle h) w in
  subscribers w' = without subscriber (subscribers w)
  ∧ (∀ other, other ∈ subscribers w' ↔
       other ∈ subscribers w ∧ sub_ref other ≠ sub_ref subscriber)
  ∧ (∀ before after,
       subscribers w = before ++ subscriber :: after →
       Forall (λ x, sub_ref x ≠ sub_ref subscriber) (before ++ after) →
       subscribers w' = before ++ after)
  ∧ w' = set_subscribers (subscribers w') w.
Proof.
  cbv zeta. change (subscribe subscriber w0).1 with (Unsubscribe subscriber).
  rewrite call_handle_iter. simpl subscribers.
  split; [done|]. split; [|split].
  - intros other. apply without_spec.
  - intros before after -> Hrest. by apply without_self.
  - done.
Qed.

(** ** The observer *)

Lemma next_without_subscriber d w value :
  subscribers w = [] → next d value w = set_thunk (Some value) w.
Proof.
  intros Hs. unfold next. rewrite Hs. by case_decide.
Qed.

Lemma pushes_without_subscriber d w earlier value :
  subscribers w = [] →
  foldl (λ w v, next d v w) w (earlier ++ [value]) = set_thunk (Some value) w.
Proof.
  revert w. induction earlier as [|v earlier IH]; intros w Hs; simpl.
  - by apply next_without_subscriber.
  - rewrite (next_without_subscriber d w v Hs). by rewrite IH.
Qed.

(** C7.  While the registry is empty, pushes call no selector and leave
    [currentValue] alone: after any run of them the state differs from the one
    before only in [thunk], which holds the last snapshot whatever it held
    before; running that thunk calls the selector once, on that snapshot. *)
Theorem push_without_subscriber_defers d w earlier value :
  subscribers w = [] →
  let w' := foldl (λ w v, next d v w) w (earlier ++ [value]) in
  w' = set_thunk (Some value) w
  ∧ trace w' = trace w
  ∧ currentValue w' = currentValue w
  ∧ thunk w' = Some value
  ∧ trace (call_thunk d w') = trace w ++ [EvSelector value]
  ∧ currentValue (call_thunk d w') = maybeSelector d value
  ∧ thunk (call_thunk d w') = None.
Proof.
  intros Hs w'. subst w'. rewrite pushes_without_subscriber by done.
  repeat split.
Qed.

Lemma notify_all d previousValue w (l : list Subscriber) :
  foldl (notify d previousValue) w l =
  {| subscribers := subscribers w; currentValue := currentValue w;
     thunk := thunk w; subscription := subscription w;
     own_property := own_property w; next_ref := next_ref w;
     trace := trace w ++
       map (λ s, EvRequestUpdate (sub_ctx s) (key d) previousValue) l |}.
Proof.
  revert w. induction l as [|s l IH]; intros w; simpl.
  - rewrite app_nil_r. by destruct w.
  - rewrite IH. simpl. by rewrite <- app_assoc.
Qed.

(** C2.  A push while the registry is not empty calls the selector.  When the
    result is [===] to [currentValue], that call is all that happens: no
    subscriber runs and [currentValue] stays.  Otherwise [currentValue] becomes
    the result and each registered subscriber runs once, in registration
    order, with the value [currentValue] had before. *)
Theorem push_notifies_iff_changed d w value :
  subscribers w ≠ [] →
  let nextValue := maybeSelector d value in
  let w' := next d value w in
  if strict_eq (currentValue w) nextValue then
    w' = emit (EvSelector value) w
  else
    currentValue w' = nextValue
    ∧ trace w' =
        trace w ++ EvSelector value ::
        map (λ s, EvRequestUpdate (sub_ctx s) (key d) (currentValue w))
          (subscribers w)
    ∧ subscribers w' = subscribers w
    ∧ thunk w' = thunk w.
Proof.
  intros Hs nextValue w'. subst nextValue w'. unfold next.
  case_decide as Hlen.
  { destruct (subscribers w); [done | discriminate]. }
  simpl. unfold strict_neq.
  destruct (strict_eq (currentValue w) (maybeSelector d value)); simpl; [done|].
  rewrite notify_all. simpl. by rewrite <- app_assoc.
Qed.

(** ** The accessor *)

Lemma getter_twice d w :
  getter d (getter d w).2 = ((getter d w).1, (getter d w).2).
Proof.
  unfold getter, call_thunk, thunk_body. destruct (thunk w) eqn:Ht; simpl.
  - done.
  - by rewrite Ht.
Qed.

(** C8.  Two reads of the property in a row, with nothing in between: both
    return the same value, the second changes nothing (it calls no selector),
    and the first calls the selector at most once, namely when a thunk was
    pending; after the accessor has run no thunk is pending. *)
Theorem read_twice_same_value d ctx w :
  let first := read d ctx w in
  let second := read d ctx first.2 in
  second.1 = first.1
  ∧ second.2 = first.2
  ∧ (trace first.2 = trace w
     ∨ ∃ value, thunk w = Some value
                ∧ trace first.2 = trace w ++ [EvSelector value])
  ∧ selections (trace second.2) ≤ S (selections (trace w))
  ∧ thunk (getter d w).2 = None.
Proof.
  cbv zeta.
  assert (Hown : own_property (read d ctx w).2 = own_property w).
  { unfold read, getter, call_thunk, thunk_body.
    destruct (own_property w !! ctx) as [[?|]|]; destruct (thunk w); done. }
  assert (Htr : trace (getter d w).2 = trace w
     ∨ ∃ value, thunk w = Some value
                ∧ trace (getter d w).2 = trace w ++ [EvSelector value]).
  { unfold getter, call_thunk, thunk_body.
    destruct (thunk w) as [value|]; simpl; eauto. }
  assert (Hread : read d ctx (read d ctx w).2 = read d ctx w).
  { assert (Hg : own_property (getter d w).2 = own_property w).
    { unfold getter, call_thunk, thunk_body. by destruct (thunk w). }
    unfold read.
    destruct (own_property w !! ctx) as [[?|]|] eqn:Ho.
    - simpl. by rewrite Ho.
    - rewrite Hg, Ho, getter_twice. by destruct (getter d w).
    - rewrite Hg, Ho, getter_twice. by destruct (getter d w). }
  assert (Htr' : trace (read d ctx w).2 = trace w
     ∨ ∃ value, thunk w = Some value
                ∧ trace (read d ctx w).2 = trace w ++ [EvSelector value]).
  { unfold read. destruct (own_property w !! ctx) as [[?|]|]; simpl; auto. }
  rewrite Hread. split; [done|]. split; [done|]. split; [done|]. split.
  - destruct Htr' as [Ht | (value & _ & Ht)]; rewrite Ht.
    + lia.
    + unfold selections. rewrite List.filter_app, length_app. simpl. lia.
  - unfold getter, call_thunk, thunk_body.
    destruct (thunk w) eqn:Ht; simpl; done.
Qed.

(** ** Frames: what each operation leaves alone *)

Lemma next_frame d w value :
  subscribers (next d value w) = subscribers w
  ∧ subscription (next d value w) = subscription w
  ∧ next_ref (next d value w) = next_ref w
  ∧ own_property (next d value w) = own_property w.
Proof.
  unfold next. case_decide; [done|]. simpl.
  destruct (strict_neq _ _); [|done]. by rewrite notify_all.
Qed.

Lemma getter_frame d w :
  subscribers (getter d w).2 = subscribers w
  ∧ subscription (getter d w).2 = subscription w
  ∧ next_ref (getter d w).2 = next_ref w
  ∧ own_property (getter d w).2 = own_property w.
Proof.
  unfold getter, call_thunk, thunk_body. by destruct (thunk w).
Qed.

Lemma read_frame d ctx w :
  subscribers (read d ctx w).2 = subscribers w
  ∧ subscription (read d ctx w).2 = subscription w
  ∧ next_ref (read d ctx w).2 = next_ref w
  ∧ own_property (read d ctx w).2 = own_property w.
Proof.
  unfold read.
  destruct (own_property w !! ctx) as [[?|]|]; [done| |]; apply getter_frame.
Qed.

Lemma registry_wf_frame w w' :
  subscribers w' = subscribers w →
  subscription w' = subscription w →
  next_ref w' = next_ref w →
  registry_wf w → registry_wf w'.
Proof.
  unfold registry_wf. by intros -> -> ->.
Qed.

(** ** The registration invariant *)

Lemma registry_wf_initial : registry_wf (initial (Value := Value)).
Proof.
  unfold registry_wf; simpl. repeat split; constructor.
Qed.

Lemma registry_wf_next d value w :
  registry_wf w → registry_wf (next d value w).
Proof.
  destruct (next_frame d w value) as (? & ? & ? & _).
  by apply registry_wf_frame.
Qed.

Lemma registry_wf_read d ctx w :
  registry_wf w → registry_wf (read d ctx w).2.
Proof.
  destruct (read_frame d ctx w) as (? & ? & ? & _).
  by apply registry_wf_frame.
Qed.

Lemma registry_wf_without subscriber w :
  registry_wf w →
  registry_wf (set_subscribers (without subscriber (subscribers w)) w).
Proof.
  intros (Hlt & Hnd & Hslot). unfold registry_wf, without; simpl.
  rewrite !Forall_forall in *. split; [|split].
  - intros s [_ Hin]%list_elem_of_filter. by apply Hlt.
  - eapply sublist_NoDup; [exact Hnd|].
    apply fmap_sublist, sublist_filter.
  - intros s [_ Hin]%list_elem_of_filter. by apply Hslot.
Qed.

Lemma registry_wf_call_subscription ctx w :
  registry_wf w → registry_wf (call_subscription ctx w).
Proof.
  intros Hwf. unfold call_subscription.
  destruct (subscription w !! ctx) as [[subscriber]|]; [|done].
  by apply registry_wf_without.
Qed.

Lemma registered_spec ctx (l : list Subscriber) item :
  item ∈ registered ctx l ↔ sub_ctx item = ctx ∧ item ∈ l.
Proof. unfold registered. by rewrite list_elem_of_filter. Qed.

(** After [ctx[subscriptionKey]?.()] the instance has no subscriber left. *)
Lemma call_subscription_unregisters ctx w :
  registry_wf w →
  registered ctx (subscribers (call_subscription ctx w)) = [].
Proof.
  intros (_ & _ & Hslot). rewrite Forall_forall in Hslot.
  apply elem_of_nil_inv. intros item [Hctx Hin]%registered_spec.
  unfold call_subscription in Hin.
  destruct (subscription w !! ctx) as [[subscriber]|] eqn:Hs; simpl in Hin.
  - apply without_spec in Hin as [Hin Hne].
    specialize (Hslot item Hin). rewrite Hctx, Hs in Hslot.
    by injection Hslot as ->.
  - specialize (Hslot item Hin). by rewrite Hctx, Hs in Hslot.
Qed.

(** ** The lifecycle hooks *)

(** The connect hook, field by field. *)
Lemma connectedCallback_fields p ctx w :
  let subscriber := {| sub_ref := next_ref w; sub_ctx := ctx |} in
  let w' := connectedCallback p ctx w in
  subscribers w' = subscribers (call_subscription ctx w) ++ [subscriber]
  ∧ subscription w' = <[ctx := Unsubscribe subscriber]> (subscription w)
  ∧ next_ref w' = S (next_ref w)
  ∧ currentValue w' = currentValue w
  ∧ thunk w' = thunk w
  ∧ own_property w' = <[ctx := AccessorProperty]> (own_property w)
  ∧ trace w' = trace w ++ (if connect p then [EvConnect ctx] else []).
Proof.
  cbv zeta.
  unfold connectedCallback, call_existing, has_own_getter, configureSetter,
    call_subscription, subscribe.
  assert (Hown : ∀ m : gmap nat (OwnProperty Value),
            m !! ctx = Some AccessorProperty →
            m = <[ctx := AccessorProperty]> m).
  { intros m Hm. by rewrite insert_id. }
  destruct (connect p); simpl; rewrite ?app_nil_r;
    destruct (own_property w !! ctx) as [[?|]|] eqn:Ho; simpl;
    destruct (subscription w !! ctx) as [[?]|]; simpl;
    repeat split; auto.
Qed.

(** The disconnect hook, field by field. *)
Lemma disconnectedCallback_fields p ctx w :
  let w' := disconnectedCallback p ctx w in
  subscribers w' = subscribers (call_subscription ctx w)
  ∧ subscription w' = subscription w
  ∧ next_ref w' = next_ref w
  ∧ currentValue w' = currentValue w
  ∧ thunk w' = thunk w
  ∧ own_property w' = own_property w
  ∧ trace w' = trace w ++ (if disconnect p then [EvDisconnect ctx] else []).
Proof.
  cbv zeta. unfold disconnectedCallback, call_existing, call_subscription.
  destruct (disconnect p); simpl; rewrite ?app_nil_r;
    destruct (subscription w !! ctx) as [[?]|]; simpl; repeat split.
Qed.

Lemma registry_wf_connected p ctx w :
  registry_wf w → registry_wf (connectedCallback p ctx w).
Proof.
  intros Hwf.
  pose proof (call_subscription_unregisters ctx w Hwf) as Hnone.
  destruct (registry_wf_call_subscription ctx w Hwf) as (Hlt & Hnd & Hslot).
  assert (Hpre : next_ref (call_subscription ctx w) = next_ref w
                 ∧ subscription (call_subscription ctx w) = subscription w).
  { unfold call_subscription.
    by destruct (subscription w !! ctx) as [[?]|]. }
  destruct Hpre as [Hn Hs]. rewrite Hn in Hlt. rewrite Hs in Hslot.
  unfold registry_wf.
  destruct (connectedCallback_fields p ctx w) as (-> & -> & -> & _).
  set (pre := subscribers (call_subscription ctx w)) in *.
  rewrite Forall_forall in Hlt, Hslot.
  split; [|split].
  - apply Forall_app. split.
    + apply Forall_forall. intros s Hin. specialize (Hlt s Hin). lia.
    + repeat constructor.
  - rewrite fmap_app. apply NoDup_app. split; [done|]. split.
    + intros n (s & -> & Hin)%list_elem_of_fmap. simpl.
      intros Heq%list_elem_of_singleton. specialize (Hlt s Hin). lia.
    + apply NoDup_singleton.
  - apply Forall_app. split.
    + apply Forall_forall. intros s Hin.
      rewrite lookup_insert_ne; [by apply Hslot|].
      intros Hctx. assert (Hr : s ∈ registered ctx pre).
      { by apply registered_spec. }
      rewrite Hnone in Hr. by apply not_elem_of_nil in Hr.
    + constructor; [|constructor]. simpl. apply lookup_insert_eq.
Qed.

Lemma registry_wf_disconnected p ctx w :
  registry_wf w → registry_wf (disconnectedCallback p ctx w).
Proof.
  intros Hwf.
  destruct (disconnectedCallback_fields p ctx w) as (Hsubs & Hs & Hn & _).
  apply (registry_wf_frame (call_subscription ctx w)).
  - done.
  - rewrite Hs. unfold call_subscription.
    by destruct (subscription w !! ctx) as [[?]|].
  - rewrite Hn. unfold call_subscription.
    by destruct (subscription w !! ctx) as [[?]|].
  - by apply registry_wf_call_subscription.
Qed.

Lemma registry_wf_step d p a w :
  registry_wf w → registry_wf (step d p a w).
Proof.
  destruct a; simpl;
    auto using registry_wf_next, registry_wf_connected,
      registry_wf_disconnected, registry_wf_read.
Qed.

Lemma registry_wf_run d p actions w :
  registry_wf w → registry_wf (run d p actions w).
Proof.
  revert w. induction actions as [|a actions IH]; intros w Hwf; simpl.
  - done.
  - by apply IH, registry_wf_step.
Qed.

Lemma registry_wf_from_subscribe d observable :
  registry_wf (from_subscribe d observable).
Proof.
  unfold from_subscribe.
  generalize (emitted_on_subscribe observable) as values.
  generalize (registry_wf_initial). generalize (initial (Value := Value)).
  intros w Hwf values. revert w Hwf.
  induction values as [|v values IH]; intros w Hwf; simpl; [done|].
  by apply IH, registry_wf_next.
Qed.

(** The values delivered while subscribing are pushes like any other. *)
Lemma from_subscribe_run d p observable :
  from_subscribe d observable
  = run d p (Push <$> emitted_on_subscribe observable) initial.
Proof.
  unfold from_subscribe. generalize (initial (Value := Value)).
  induction (emitted_on_subscribe observable) as [|v values IH]; intros w.
  - done.
  - simpl. apply IH.
Qed.

(** An instance is registered at most once. *)
Lemma registry_wf_at_most_one ctx w :
  registry_wf w → length (registered ctx (subscribers w)) ≤ 1.
Proof.
  intros (_ & Hnd & Hslot). revert Hnd Hslot.
  induction (subscribers w) as [|x l IH]; intros Hnd Hslot; [simpl; lia|].
  inversion Hnd as [|? ? Hx Hl]; subst.
  inversion Hslot as [|? ? Hsx Hsl]; subst.
  unfold registered. rewrite filter_cons. case_decide as Hctx.
  - assert (Hnil : registered ctx l = []).
    { apply elem_of_nil_inv. intros y [Hy Hin]%registered_spec.
      rewrite Forall_forall in Hsl. specialize (Hsl y Hin).
      rewrite Hy, <- Hctx, Hsx in Hsl. injection Hsl as ->.
      apply Hx, list_elem_of_fmap. by exists y. }
    fold (registered ctx l). rewrite Hnil. simpl. lia.
  - by apply IH.
Qed.

(** ** Counting [requestUpdate] calls *)

Lemma requests_for_app ctx (t1 t2 : list (Event Value)) :
  requests_for ctx (t1 ++ t2) = requests_for ctx t1 + requests_for ctx t2.
Proof.
  unfold requests_for. by rewrite List.filter_app, length_app.
Qed.

Lemma requests_of_notifications ctx name (previousValue : Value)
    (l : list Subscriber) :
  requests_for ctx
    (map (λ s, EvRequestUpdate (sub_ctx s) name previousValue) l)
  = length (registered ctx l).
Proof.
  unfold requests_for, registered.
  induction l as [|x l IH]; [done|].
  simpl. rewrite filter_cons. destruct (decide (sub_ctx x = ctx)) as [Hx|Hx].
  - rewrite bool_decide_eq_true_2 by done. simpl. by rewrite IH.
  - by rewrite bool_decide_eq_false_2.
Qed.

(** One push calls [requestUpdate] on an instance at most as often as the
    instance is registered, and removes no earlier call from the trace. *)
Lemma next_requests d w value ctx :
  requests_for ctx (trace w) ≤ requests_for ctx (trace (next d value w))
  ∧ requests_for ctx (trace (next d value w))
    ≤ requests_for ctx (trace w) + length (registered ctx (subscribers w)).
Proof.
  unfold next. case_decide; simpl; [lia|].
  destruct (strict_neq _ _).
  - rewrite notify_all. simpl.
    rewrite !requests_for_app, requests_of_notifications.
    change (requests_for ctx [EvSelector value]) with 0. lia.
  - simpl. rewrite requests_for_app.
    change (requests_for ctx [EvSelector value]) with 0. lia.
Qed.

(** C4.  In every state reached from the decoration by pushes, connects,
    disconnects and reads, an instance has at most one subscriber in the
    registry, and a push calls its [requestUpdate] at most once.  Connecting
    twice in a row: the first connect stores the handle of its subscriber in
    the slot; the second calls that handle, so the first subscriber is gone,
    before it appends its own, which is then the only one of the instance. *)
Theorem at_most_one_registration d p observable actions ctx value :
  let w := run d p actions (from_subscribe d observable) in
  let first := {| sub_ref := next_ref w; sub_ctx := ctx |} in
  let second := {| sub_ref := S (next_ref w); sub_ctx := ctx |} in
  let once := connectedCallback p ctx w in
  let twice := connectedCallback p ctx once in
  length (registered ctx (subscribers w)) ≤ 1
  ∧ requests_for ctx (trace (next d value w)) ≤ S (requests_for ctx (trace w))
  ∧ subscription once !! ctx = Some (Unsubscribe first)
  ∧ registered ctx (subscribers once) = [first]
  ∧ subscribers twice = without first (subscribers once) ++ [second]
  ∧ (first ∉ subscribers twice)
  ∧ registered ctx (subscribers twice) = [second].
Proof.
  intros w first second once twice.
  assert (Hwf : registry_wf w).
  { apply registry_wf_run, registry_wf_from_subscribe. }
  assert (Hwf1 : registry_wf once) by by apply registry_wf_connected.
  assert (Hregistered : ∀ w0, registry_wf w0 →
            registered ctx (subscribers (connectedCallback p ctx w0))
            = [{| sub_ref := next_ref w0; sub_ctx := ctx |}]).
  { intros w0 Hwf0.
    destruct (connectedCallback_fields p ctx w0) as (-> & _).
    unfold registered. rewrite filter_app.
    fold (registered ctx (subscribers (call_subscription ctx w0))).
    rewrite call_subscription_unregisters by done.
    by rewrite filter_cons_True. }
  destruct (connectedCallback_fields p ctx w) as (Hs1 & Hh1 & Hn1 & _).
  destruct (connectedCallback_fields p ctx once) as (Hs2 & _).
  fold once in Hs1, Hh1, Hn1. fold twice in Hs2.
  assert (Hcall : subscribers (call_subscription ctx once)
                  = without first (subscribers once)).
  { unfold call_subscription. rewrite Hh1, lookup_insert_eq. done. }
  split; [by apply registry_wf_at_most_one|]. split.
  { pose proof (next_requests d w value ctx) as [_ Hle].
    pose proof (registry_wf_at_most_one ctx w Hwf). lia. }
  split; [by rewrite Hh1, lookup_insert_eq|].
  split; [by apply Hregistered|].
  split; [by rewrite Hs2, Hcall, Hn1|].
  split.
  - rewrite Hs2, Hcall, Hn1. intros [Hin | Hin]%elem_of_app.
    + apply without_spec in Hin as [_ Hne]. by apply Hne.
    + apply list_elem_of_singleton in Hin. injection Hin. lia.
  - unfold twice. rewrite Hregistered by done. by rewrite Hn1.
Qed.

(** C9, as the code has it.  With a handle in the slot, the disconnect hook
    calls the handle, which takes the subscriber it captured out of the
    registry, and after that calls the prototype's earlier hook when there was
    one; the slot is left as it was and still holds the handle. *)
Theorem disconnect_calls_handle_keeps_slot p ctx w h :
  subscription w !! ctx = Some h →
  let w' := disconnectedCallback p ctx w in
  w' = call_existing (disconnect p) (EvDisconnect ctx) (call_handle h w)
  ∧ subscribers w' =
      match h with
      | Unsubscribe subscriber => without subscriber (subscribers w)
      end
  ∧ trace w' = trace w ++ (if disconnect p then [EvDisconnect ctx] else [])
  ∧ subscription w' !! ctx = Some h.
Proof.
  intros Hslot w'. subst w'.
  unfold disconnectedCallback, call_subscription. rewrite Hslot.
  destruct h as [subscriber]. unfold call_existing.
  destruct (disconnect p); simpl; rewrite ?app_nil_r; repeat split; done.
Qed.

(** ** After a disconnect *)

Lemma call_subscription_registered ctx ctx' w :
  registered ctx (subscribers w) = [] →
  registered ctx (subscribers (call_subscription ctx' w)) = [].
Proof.
  intros Hnone. apply elem_of_nil_inv.
  intros item [Hctx Hin]%registered_spec.
  assert (Hold : item ∈ registered ctx (subscribers w)).
  { apply registered_spec. split; [done|]. unfold call_subscription in Hin.
    destruct (subscription w !! ctx') as [[subscriber]|]; [|done].
    simpl in Hin. by apply without_spec in Hin as [Hin _]. }
  rewrite Hnone in Hold. by apply not_elem_of_nil in Hold.
Qed.

(** A step other than a connect of [ctx] keeps [ctx] out of the registry and
    calls no [requestUpdate] on it. *)
Lemma unregistered_step d p ctx a w :
  is_connect_of ctx a = false →
  registered ctx (subscribers w) = [] →
  registered ctx (subscribers (step d p a w)) = []
  ∧ requests_for ctx (trace (step d p a w)) = requests_for ctx (trace w).
Proof.
  intros Ha Hnone.
  destruct a as [value|ctx'|ctx'|ctx']; cbn [step is_connect_of] in *.
  - destruct (next_frame d w value) as (-> & _).
    pose proof (next_requests d w value ctx) as [Hge Hle].
    rewrite Hnone in Hle. simpl in Hle. split; [done|lia].
  - apply bool_decide_eq_false in Ha.
    destruct (connectedCallback_fields p ctx' w) as (-> & _ & _ & _ & _ & _ & ->).
    split.
    + unfold registered. rewrite filter_app.
      fold (registered ctx (subscribers (call_subscription ctx' w))).
      rewrite call_subscription_registered by done.
      by rewrite filter_cons_False.
    + rewrite requests_for_app. by destruct (connect p).
  - destruct (disconnectedCallback_fields p ctx' w)
      as (-> & _ & _ & _ & _ & _ & ->).
    split; [by apply call_subscription_registered|].
    rewrite requests_for_app. by destruct (disconnect p).
  - destruct (read_frame d ctx' w) as (-> & _). split; [done|].
    unfold read, getter, call_thunk, thunk_body.
    destruct (own_property w !! ctx') as [[?|]|]; [done| |];
      (destruct (thunk w); simpl; [rewrite requests_for_app|];
       unfold requests_for; simpl; lia).
Qed.

Lemma unregistered_run d p ctx actions w :
  forallb (λ a, negb (is_connect_of ctx a)) actions = true →
  registered ctx (subscribers w) = [] →
  requests_for ctx (trace (run d p actions w)) = requests_for ctx (trace w).
Proof.
  revert w. induction actions as [|a actions IH]; intros w Hacts Hnone.
  - done.
  - simpl in Hacts. apply andb_prop in Hacts as [Ha Hacts].
    apply negb_true_iff in Ha.
    destruct (unregistered_step d p ctx a w Ha Hnone) as [Hnone' Hreq].
    simpl. rewrite IH by done. exact Hreq.
Qed.

(** After the disconnect hook has run on an instance of a reachable state, no
    push calls that instance's [requestUpdate] until the instance connects
    again, whatever else happens in between. *)
Lemma disconnect_silences d p ctx actions w :
  registry_wf w →
  forallb (λ a, negb (is_connect_of ctx a)) actions = true →
  let w' := disconnectedCallback p ctx w in
  requests_for ctx (trace (run d p actions w')) = requests_for ctx (trace w).
Proof.
  intros Hwf Hacts w'. subst w'.
  destruct (disconnectedCallback_fields p ctx w)
    as (Hs & _ & _ & _ & _ & _ & Ht).
  rewrite unregistered_run; [| done |].
  - rewrite Ht, requests_for_app. destruct (disconnect p); simpl.
    + unfold requests_for at 2. simpl. lia.
    + unfold requests_for at 2. simpl. lia.
  - rewrite Hs. by apply call_subscription_unregisters.
Qed.

(** ** The accessor when no thunk goes stale *)

Lemma no_own_data_step d p a w :
  no_own_data w → no_own_data (step d p a w).
Proof.
  intros Hown ctx' value.
  destruct a as [v|ctx|ctx|ctx]; cbn [step].
  - destruct (next_frame d w v) as (_ & _ & _ & ->). apply Hown.
  - destruct (connectedCallback_fields p ctx w)
      as (_ & _ & _ & _ & _ & -> & _).
    destruct (decide (ctx = ctx')) as [->|Hne].
    + by rewrite lookup_insert_eq.
    + rewrite lookup_insert_ne by done. apply Hown.
  - destruct (disconnectedCallback_fields p ctx w)
      as (_ & _ & _ & _ & _ & -> & _).
    apply Hown.
  - destruct (read_frame d ctx w) as (_ & _ & _ & ->). apply Hown.
Qed.

Lemma reflects_getter d latest w :
  reflects d latest w →
  ((getter d w).1 = maybeSelector d latest
   ∨ strict_eq (getter d w).1 (maybeSelector d latest) = true)
  ∧ reflects d latest (getter d w).2.
Proof.
  unfold reflects, getter, call_thunk, thunk_body.
  destruct (thunk w) as [value|] eqn:Ht; simpl.
  - intros ->. auto.
  - rewrite Ht. auto.
Qed.

Lemma reflects_step d p a w o :
  safe_push a w = true →
  from_option (λ latest, reflects d latest w) True o →
  from_option (λ latest, reflects d latest (step d p a w)) True
    (last_pushed o [a]).
Proof.
  intros Hsafe Hinv. destruct a as [value|ctx|ctx|ctx]; cbn [step last_pushed foldl].
  - simpl. unfold reflects, next. unfold safe_push in Hsafe.
    case_decide as Hlen.
    + done.
    + destruct (thunk w) eqn:Ht.
      { destruct (subscribers w); [done | discriminate]. }
      simpl. unfold strict_neq.
      destruct (strict_eq (currentValue w) (maybeSelector d value)) eqn:He;
        simpl.
      * rewrite Ht. auto.
      * rewrite notify_all. simpl. rewrite Ht. auto.
  - destruct o as [latest|]; [|done]. simpl in *. unfold reflects in *.
    destruct (connectedCallback_fields p ctx w)
      as (_ & _ & _ & -> & -> & _). done.
  - destruct o as [latest|]; [|done]. simpl in *. unfold reflects in *.
    destruct (disconnectedCallback_fields p ctx w)
      as (_ & _ & _ & -> & -> & _). done.
  - destruct o as [latest|]; [|done]. simpl in *. unfold read.
    destruct (own_property w !! ctx) as [[?|]|]; [done| |];
      by apply reflects_getter.
Qed.

Lemma reflects_run d p actions w o :
  thunk_never_stale d p actions w = true →
  from_option (λ latest, reflects d latest w) True o →
  from_option (λ latest, reflects d latest (run d p actions w)) True
    (last_pushed o actions).
Proof.
  revert w o. induction actions as [|a actions IH]; intros w o Hsafe Hinv.
  - done.
  - simpl in Hsafe. apply andb_prop in Hsafe as [Ha Hsafe].
    change (last_pushed o (a :: actions))
      with (last_pushed (last_pushed o [a]) actions).
    simpl run. apply IH; [done|]. by apply reflects_step.
Qed.

Lemma no_own_data_run d p actions w :
  no_own_data w → no_own_data (run d p actions w).
Proof.
  revert w. induction actions as [|a actions IH]; intros w Hown; [done|].
  simpl. by apply IH, no_own_data_step.
Qed.

(** What holds of the accessor: along a run in which no push finds both a
    subscriber registered and a thunk pending, a read returns the selection
    of the snapshot pushed last, or the value that selection was found [===]
    to. *)
Theorem accessor_reflects_latest d p actions ctx latest :
  thunk_never_stale d p actions initial = true →
  last_pushed None actions = Some latest →
  let w := run d p actions initial in
  (read d ctx w).1 = maybeSelector d latest
  ∨ strict_eq (read d ctx w).1 (maybeSelector d latest) = true.
Proof.
  intros Hsafe Hlast w.
  pose proof (reflects_run d p actions initial None Hsafe I) as Hinv.
  rewrite Hlast in Hinv. simpl in Hinv. fold w in Hinv.
  assert (Hown : no_own_data w).
  { apply no_own_data_run. intros ctx' value. simpl. by rewrite lookup_empty. }
  unfold read. destruct (own_property w !! ctx) as [[value|]|] eqn:Ho.
  - by destruct (Hown ctx value).
  - by apply reflects_getter.
  - by apply reflects_getter.
Qed.

(** ** Seeding from a store *)

Lemma seeded_getter d state w :
  selector d = None → seeded state w →
  (getter d w).1 = state ∧ seeded state (getter d w).2.
Proof.
  intros Hsel Hseed. unfold getter, call_thunk, thunk_body, call_selector,
    maybeSelector. rewrite Hsel.
  destruct Hseed as [Ht | [Ht Hc]]; rewrite Ht; simpl; unfold seeded; simpl;
    rewrite ?Ht; auto.
Qed.

Lemma seeded_read d state ctx w :
  selector d = None → no_own_data w → seeded state w →
  (read d ctx w).1 = state ∧ seeded state (read d ctx w).2.
Proof.
  intros Hsel Hown Hseed. unfold read.
  destruct (own_property w !! ctx) as [[value|]|] eqn:Ho.
  - by destruct (Hown ctx value).
  - by apply seeded_getter.
  - by apply seeded_getter.
Qed.

Lemma seeded_step d p state a w :
  selector d = None → is_push a = false →
  no_own_data w ∧ seeded state w →
  no_own_data (step d p a w) ∧ seeded state (step d p a w).
Proof.
  intros Hsel Ha [Hown Hseed].
  destruct a as [value|ctx|ctx|ctx]; cbn [step is_push] in *.
  - discriminate.
  - destruct (connectedCallback_fields p ctx w)
      as (_ & _ & _ & Hc & Ht & Ho & _).
    split.
    + intros ctx' value. rewrite Ho.
      destruct (decide (ctx = ctx')) as [->|Hne].
      * by rewrite lookup_insert_eq.
      * rewrite lookup_insert_ne by done. apply Hown.
    + unfold seeded. by rewrite Hc, Ht.
  - destruct (disconnectedCallback_fields p ctx w)
      as (_ & _ & _ & Hc & Ht & Ho & _).
    split.
    + intros ctx' value. rewrite Ho. apply Hown.
    + unfold seeded. by rewrite Hc, Ht.
  - split.
    + destruct (read_frame d ctx w) as (_ & _ & _ & Ho).
      intros ctx' value. rewrite Ho. apply Hown.
    + by apply seeded_read.
Qed.

(** C6.  Decorating with no selector over a store whose current snapshot is
    [state]: as long as the store has pushed nothing more, whatever instances
    connect, disconnect or read in between, reading the property returns
    [state].  (The snapshot a store delivers on subscription is the part
    modelled from the spec.) *)
Theorem store_seeds_property p state call actions ctx :
  forallb (λ a, negb (is_push a)) actions = true →
  let d := {| selector := None; key := call_key call |} in
  let w := run d p actions (watchDecorator (StoreLike state) None call).1 in
  (read d ctx w).1 = state.
Proof.
  intros Hacts d w.
  assert (Hinv : no_own_data w ∧ seeded state w).
  { subst w.
    assert (H0 : no_own_data (watchDecorator (StoreLike state) None call).1
                 ∧ seeded state (watchDecorator (StoreLike state) None call).1).
    { assert (Hw : (watchDecorator (StoreLike state) None call).1
                   = set_thunk (Some state) initial).
      { unfold watchDecorator. by destruct call as [ce|prototype k];
          [destruct (is_accessor_element ce) | destruct (patch_returns prototype)]. }
      rewrite Hw. split.
      - intros ctx' value. simpl. by rewrite lookup_empty.
      - by left. }
    revert H0. generalize (watchDecorator (StoreLike state) None call).1.
    induction actions as [|a actions IH]; intros w0 H0; [done|].
    simpl in Hacts. apply andb_prop in Hacts as [Ha Hacts].
    apply negb_true_iff in Ha. simpl. apply IH; [done|].
    by apply seeded_step. }
  destruct Hinv as [Hown Hseed].
  by apply (seeded_read d state ctx w).
Qed.

(** ** The decorator call *)

Lemma redefinition_throws (get : FunctionRef)
    (prototype : PatchTarget Value) :
  defineProperty_returns (patched get prototype) = false.
Proof. reflexivity. Qed.

(** C3, as the code has it.  In the class-element form the call throws the
    guard's error exactly for an accessor, an element of kind method whose
    descriptor is present and has no [value], and the message then holds the
    element's key between quotes; for an element of kind field and for a
    method whose descriptor has a [value] the call returns the element
    descriptor.  In the legacy form the guard is not reached: the call
    returns when the prototype can be patched and throws a [TypeError] when
    it cannot, as on a prototype an earlier call has patched for the key. *)
Theorem decorator_rejects_accessors_only observable sel
    (call : DecoratorCall Value) :
  let completion := (watchDecorator observable sel call).2 in
  (∀ message, completion = Throw message ↔
     ∃ classElement descriptor,
       call = Proposal classElement
       ∧ el_kind classElement = KindMethod
       ∧ el_descriptor classElement = Some descriptor
       ∧ desc_value descriptor = None
       ∧ message =
           ("Unable to decorate an accessor (" ++ quote ++
            el_key classElement ++ quote ++ ")")%string)
  ∧ (∀ classElement,
       call = Proposal classElement →
       el_kind classElement = KindField →
       completion = ReturnElement (el_key classElement)
                      (el_initializer classElement) KindField PlacementOwn)
  ∧ (∀ classElement descriptor value,
       call = Proposal classElement →
       el_descriptor classElement = Some descriptor →
       desc_value descriptor = Some value →
       completion = ReturnElement (el_key classElement)
                      (el_initializer classElement) KindField PlacementOwn)
  ∧ (∀ prototype propertyKey,
       call = Legacy prototype propertyKey →
       (completion = ReturnPatched propertyKey
        ∧ defineProperty_returns prototype = true
        ∧ connectedCallback_assignable prototype = true
        ∧ disconnectedCallback_assignable prototype = true)
       ∨ (completion = ThrowTypeError
          ∧ (defineProperty_returns prototype = false
             ∨ connectedCallback_assignable prototype = false
             ∨ disconnectedCallback_assignable prototype = false)))
  ∧ (∀ get prototype propertyKey,
       call = Legacy (patched get prototype) propertyKey →
       completion = ThrowTypeError).
Proof.
  cbv zeta. unfold watchDecorator.
  split; [|split; [|split; [|split]]].
  - intros message. split.
    + destruct call as [ce|prototype k]; simpl.
      * unfold is_accessor_element.
        destruct (el_kind ce) eqn:Hk; [discriminate|].
        destruct (el_descriptor ce) as [dsc|] eqn:Hd; [|discriminate].
        destruct (desc_value dsc) eqn:Hv; [discriminate|].
        intros [= <-]. by exists ce, dsc.
      * by destruct (patch_returns prototype).
    + intros (ce & dsc & -> & Hk & Hd & Hv & ->). simpl.
      unfold is_accessor_element. by rewrite Hk, Hd, Hv.
  - intros ce -> Hk. simpl. unfold is_accessor_element. by rewrite Hk.
  - intros ce dsc value -> Hd Hv. simpl. unfold is_accessor_element.
    rewrite Hd, Hv. by destruct (el_kind ce).
  - intros prototype k ->. unfold patch_returns.
    destruct (defineProperty_returns prototype),
      (connectedCallback_assignable prototype),
      (disconnectedCallback_assignable prototype); simpl; auto 6.
  - intros get prototype k ->. unfold patch_returns.
    by rewrite redefinition_throws.
Qed.

End Properties.

(** * Further properties of the module *)

Section Lifecycle.

Context `{JsValues Value}.

Implicit Types (w : World Value) (d : Decoration Value) (p : Prototype).
Implicit Types (value : Value) (subscriber : Subscriber) (ctx : nat).
Implicit Types (actions : list (Action Value)) (a : Action Value).

(** ** The registry against the lifecycle calls *)

Lemma fmap_filter_agree {A B} (f : A → B) (P : A → Prop) (Q : B → Prop)
    `{!∀ x, Decision (P x)} `{!∀ y, Decision (Q y)} (l : list A) :
  (∀ x, x ∈ l → P x ↔ Q (f x)) →
  f <$> filter P l = filter Q (f <$> l).
Proof.
  induction l as [|x l IH]; intros Hagree; [done|].
  assert (Hx : P x ↔ Q (f x)) by (apply Hagree; left).
  assert (Hl : f <$> filter P l = filter Q (f <$> l)).
  { apply IH. intros y Hy. apply Hagree. by right. }
  rewrite fmap_cons, !filter_cons.
  destruct (decide (P x)) as [HP|HP], (decide (Q (f x))) as [HQ|HQ].
  - by rewrite fmap_cons, Hl.
  - by destruct HQ; apply Hx.
  - by destruct HP; apply Hx.
  - done.
Qed.

Lemma slots_wf_initial : slots_wf (initial (Value := Value)).
Proof.
  split; simpl.
  - intros i s. by rewrite lookup_empty.
  - intros i j s t. by rewrite lookup_empty.
Qed.

Lemma slots_wf_frame w w' :
  subscription w' = subscription w → next_ref w' = next_ref w →
  slots_wf w → slots_wf w'.
Proof. unfold slots_wf. by intros -> ->. Qed.

Lemma slots_wf_connected p ctx w :
  slots_wf w → slots_wf (connectedCallback p ctx w).
Proof.
  intros [Hfresh Hinj]. unfold slots_wf.
  destruct (connectedCallback_fields p ctx w) as (_ & -> & -> & _).
  split.
  - intros i s. destruct (decide (ctx = i)) as [<-|Hne].
    + rewrite lookup_insert_eq. intros [= <-]. simpl. lia.
    + rewrite lookup_insert_ne by done. intros Hs.
      specialize (Hfresh i s Hs). lia.
  - intros i j s t.
    destruct (decide (ctx = i)) as [<-|Hi], (decide (ctx = j)) as [<-|Hj];
      rewrite ?lookup_insert_eq, ?lookup_insert_ne by done.
    + done.
    + intros [= <-] Ht Href. simpl in Href.
      specialize (Hfresh j t Ht). lia.
    + intros Hs [= <-] Href. simpl in Href.
      specialize (Hfresh i s Hs). lia.
    + apply Hinj.
Qed.

Lemma slots_wf_step d p a w :
  slots_wf w → slots_wf (step d p a w).
Proof.
  destruct a as [value|ctx|ctx|ctx]; cbn [step].
  - destruct (next_frame d w value) as (_ & Hs & Hn & _).
    by apply slots_wf_frame.
  - apply slots_wf_connected.
  - destruct (disconnectedCallback_fields p ctx w) as (_ & Hs & Hn & _).
    by apply slots_wf_frame.
  - destruct (read_frame d ctx w) as (_ & Hs & Hn & _).
    by apply slots_wf_frame.
Qed.

(** Calling the slot's handle takes out the subscribers of that instance,
    and only those. *)
Lemma call_subscription_hosts ctx w :
  registry_wf w → slots_wf w →
  sub_ctx <$> subscribers (call_subscription ctx w)
  = filter (λ c, c ≠ ctx) (sub_ctx <$> subscribers w).
Proof.
  intros (_ & _ & Hslot) [_ Hinj]. rewrite Forall_forall in Hslot.
  unfold call_subscription.
  destruct (subscription w !! ctx) as [[old]|] eqn:Hs; simpl.
  - unfold without. apply fmap_filter_agree. intros x Hx.
    specialize (Hslot x Hx). split.
    + intros Href Hctx. rewrite Hctx, Hs in Hslot.
      by injection Hslot as ->.
    + intros Hctx Href. apply Hctx. by eapply Hinj.
  - rewrite <- (fmap_filter_agree sub_ctx (λ _, True) (λ c, c ≠ ctx)).
    + f_equal. induction (subscribers w) as [|x l IH]; [done|].
      rewrite filter_cons_True by done. f_equal. apply IH.
      intros y Hy. apply Hslot. by right.
    + intros x Hx. specialize (Hslot x Hx). split; [|done].
      intros _ Hctx. by rewrite Hctx, Hs in Hslot.
Qed.

Lemma hosts_of_step d p a w :
  registry_wf w → slots_wf w →
  sub_ctx <$> subscribers (step d p a w)
  = hosts_step (sub_ctx <$> subscribers w) a.
Proof.
  intros Hwf Hslots. destruct a as [value|ctx|ctx|ctx]; cbn [step hosts_step].
  - by destruct (next_frame d w value) as (-> & _).
  - destruct (connectedCallback_fields p ctx w) as (-> & _).
    by rewrite fmap_app, call_subscription_hosts.
  - destruct (disconnectedCallback_fields p ctx w) as (-> & _).
    by apply call_subscription_hosts.
  - by destruct (read_frame d ctx w) as (-> & _).
Qed.

Lemma hosts_of_run d p actions w :
  registry_wf w → slots_wf w →
  sub_ctx <$> subscribers (run d p actions w)
  = foldl hosts_step (sub_ctx <$> subscribers w) actions.
Proof.
  revert w. induction actions as [|a actions IH]; intros w Hwf Hslots; [done|].
  simpl. rewrite IH.
  - by rewrite hosts_of_step.
  - by apply registry_wf_step.
  - by apply slots_wf_step.
Qed.

(** The state the decorator leaves behind, whatever the source delivered
    while subscribing: only the thunk differs from the initial state. *)
Lemma from_subscribe_fields d observable :
  from_subscribe d observable
  = set_thunk (last (emitted_on_subscribe observable)) initial.
Proof.
  unfold from_subscribe.
  destruct (emitted_on_subscribe observable) as [|v values] using rev_ind.
  - done.
  - rewrite last_snoc. by apply pushes_without_subscriber.
Qed.

Lemma slots_wf_from_subscribe d observable :
  slots_wf (from_subscribe d observable).
Proof.
  rewrite from_subscribe_fields.
  by apply (slots_wf_frame initial), slots_wf_initial.
Qed.

Lemma hosts_NoDup actions (hosts : list Host) :
  NoDup hosts → NoDup (foldl hosts_step hosts actions).
Proof.
  revert hosts. induction actions as [|a actions IH]; intros hosts Hnd; [done|].
  simpl. apply IH. destruct a as [value|ctx|ctx|ctx]; simpl; try done.
  - apply NoDup_app. split; [by apply NoDup_filter|]. split.
    + intros c [Hne _]%list_elem_of_filter ->%list_elem_of_singleton. done.
    + apply NoDup_singleton.
  - by apply NoDup_filter.
Qed.

Lemma hosts_of_decorated_run d p observable actions :
  sub_ctx <$> subscribers (run d p actions (from_subscribe d observable))
  = connected_hosts actions.
Proof.
  rewrite hosts_of_run.
  - by rewrite from_subscribe_fields.
  - apply registry_wf_from_subscribe.
  - apply slots_wf_from_subscribe.
Qed.

(** The registry mirrors the lifecycle calls.  In every state reached from the
    decoration, the instances that have a subscriber in the registry, read in
    registry order, are the instances whose last lifecycle call was a connect,
    in the order of those connects; none of them occurs twice. *)
Theorem registry_is_connected_hosts d p observable actions :
  let w := run d p actions (from_subscribe d observable) in
  sub_ctx <$> subscribers w = connected_hosts actions
  ∧ NoDup (connected_hosts actions)
  ∧ (∀ ctx, length (registered ctx (subscribers w))
            = if bool_decide (ctx ∈ connected_hosts actions) then 1 else 0).
Proof.
  intros w.
  assert (Hhosts : sub_ctx <$> subscribers w = connected_hosts actions).
  { apply hosts_of_decorated_run. }
  assert (Hnd : NoDup (connected_hosts actions)).
  { apply hosts_NoDup. constructor. }
  split; [done|]. split; [done|]. intros ctx.
  rewrite <- Hhosts in *. clear Hhosts. unfold registered.
  induction (subscribers w) as [|x l IH]; [done|].
  rewrite fmap_cons in Hnd. apply NoDup_cons in Hnd as [Hx Hl].
  rewrite filter_cons, fmap_cons.
  destruct (decide (sub_ctx x = ctx)) as [<-|Hne].
  - rewrite bool_decide_eq_true_2 by (apply elem_of_cons; by left).
    simpl. rewrite IH by done. by rewrite bool_decide_eq_false_2.
  - rewrite IH by done.
    rewrite (bool_decide_ext (ctx ∈ sub_ctx x :: (sub_ctx <$> l))
               (ctx ∈ sub_ctx <$> l)); [done|].
    rewrite elem_of_cons. split; [|by right].
    intros [Heq|Hin]; [by destruct Hne | done].
Qed.

(** Who is told about a push.  In a state reached from the decoration: with
    no instance connected the snapshot is deferred; otherwise the selector is
    called, and when its result is not [===] to [currentValue] the calls of
    [requestUpdate] that follow are exactly one per connected instance, in
    the order of their latest connects, each with the key and the value
    [currentValue] had before. *)
Theorem push_notifies_connected_hosts d p observable actions value :
  let w := run d p actions (from_subscribe d observable) in
  let w' := next d value w in
  match connected_hosts actions with
  | [] => w' = set_thunk (Some value) w
  | _ :: _ =>
      if strict_eq (currentValue w) (maybeSelector d value) then
        w' = emit (EvSelector value) w
      else
        trace w' =
          trace w ++ EvSelector value ::
          map (λ c, EvRequestUpdate c (key d) (currentValue w))
            (connected_hosts actions)
        ∧ currentValue w' = maybeSelector d value
  end.
Proof.
  intros w w'. subst w'.
  rewrite <- (hosts_of_decorated_run d p observable actions). fold w.
  unfold next. destruct (subscribers w) as [|x l] eqn:Hsubs; simpl.
  - done.
  - unfold strict_neq.
    destruct (strict_eq (currentValue w) (maybeSelector d value)); simpl.
    + done.
    + rewrite Hsubs, notify_all. simpl.
      rewrite <- app_assoc. simpl. by rewrite <- list_fmap_compose.
Qed.

(** ** How often the selector and [requestUpdate] are called *)

Lemma selections_app (t1 t2 : list (Event Value)) :
  selections (t1 ++ t2) = selections t1 + selections t2.
Proof.
  unfold selections. by rewrite List.filter_app, length_app.
Qed.

Lemma selections_of_notifications name (previousValue : Value)
    (l : list Subscriber) :
  selections (map (λ s, EvRequestUpdate (sub_ctx s) name previousValue) l) = 0.
Proof.
  unfold selections. by induction l.
Qed.

Lemma selector_budget_step d p a w :
  selections (trace (step d p a w)) + pending (step d p a w)
  ≤ selections (trace w) + pending w + (if is_push a then 1 else 0).
Proof.
  destruct a as [value|ctx|ctx|ctx]; cbn [step is_push].
  - unfold next. case_decide.
    + unfold pending; simpl. destruct (thunk w); lia.
    + simpl. destruct (strict_neq _ _).
      * rewrite notify_all. unfold pending; simpl.
        rewrite !selections_app, selections_of_notifications.
        change (selections [EvSelector value]) with 1. lia.
      * unfold pending; simpl. rewrite selections_app.
        change (selections [EvSelector value]) with 1. lia.
  - destruct (connectedCallback_fields p ctx w)
      as (_ & _ & _ & _ & Ht & _ & ->).
    unfold pending. rewrite Ht, selections_app.
    destruct (connect p); simpl; change (selections [EvConnect ctx]) with 0;
      change (selections (@nil (Event Value))) with 0; lia.
  - destruct (disconnectedCallback_fields p ctx w)
      as (_ & _ & _ & _ & Ht & _ & ->).
    unfold pending. rewrite Ht, selections_app.
    destruct (disconnect p); simpl;
      change (selections [EvDisconnect ctx]) with 0;
      change (selections (@nil (Event Value))) with 0; lia.
  - unfold read, getter, call_thunk, thunk_body, pending.
    destruct (own_property w !! ctx) as [[?|]|]; simpl; try lia;
      (destruct (thunk w) as [v|] eqn:Ht; simpl; rewrite ?Ht;
       rewrite ?selections_app; change (selections [EvSelector v]) with 1
       || idtac; lia).
Qed.

(** Deferring never costs a selector call.  Along any run from any state, the
    selector calls added to the trace, plus one when a thunk is left pending,
    are at most the pushes of the run, plus one when a thunk was pending at
    the start; from the state the decorator sets up the selector has run at
    most as often as the source has delivered snapshots. *)
Theorem selector_called_once_per_snapshot d p observable actions w :
  selections (trace (run d p actions w)) + pending (run d p actions w)
  ≤ selections (trace w) + pending w + pushes actions
  ∧ selections (trace (run d p actions initial)) ≤ pushes actions
  ∧ selections (trace (run d p actions (from_subscribe d observable)))
    ≤ length (emitted_on_subscribe observable) + pushes actions.
Proof.
  assert (Hrun : ∀ w0,
    selections (trace (run d p actions w0)) + pending (run d p actions w0)
    ≤ selections (trace w0) + pending w0 + pushes actions).
  { induction actions as [|a actions IH]; intros w0; [simpl; lia|].
    simpl run. specialize (IH (step d p a w0)).
    pose proof (selector_budget_step d p a w0) as Hstep.
    unfold pushes in *. simpl List.filter.
    destruct (is_push a); simpl length; lia. }
  split; [apply Hrun|]. split.
  - specialize (Hrun initial).
    change (selections (trace (initial (Value := Value)))) with 0 in Hrun.
    change (pending (initial (Value := Value))) with 0 in Hrun. lia.
  - specialize (Hrun (from_subscribe d observable)).
    rewrite from_subscribe_fields in *.
    change (selections (trace (set_thunk ?t (initial (Value := Value)))))
      with 0 in Hrun.
    assert (pending (set_thunk (last (emitted_on_subscribe observable))
                       (initial (Value := Value)))
            ≤ length (emitted_on_subscribe observable)).
    { unfold pending; simpl.
      destruct (emitted_on_subscribe observable) as [|v l]; [done|].
      destruct (last (v :: l)); simpl; lia. }
    lia.
Qed.

Lemma requests_step d p a w ctx :
  registry_wf w →
  requests_for ctx (trace (step d p a w))
  ≤ requests_for ctx (trace w) + (if is_push a then 1 else 0).
Proof.
  intros Hwf. destruct a as [value|ctx'|ctx'|ctx']; cbn [step is_push].
  - pose proof (next_requests d w value ctx) as [_ Hle].
    pose proof (registry_wf_at_most_one ctx w Hwf). lia.
  - destruct (connectedCallback_fields p ctx' w)
      as (_ & _ & _ & _ & _ & _ & ->).
    rewrite requests_for_app. destruct (connect p); simpl;
      change (requests_for ctx [EvConnect ctx']) with 0;
      change (requests_for ctx (@nil (Event Value))) with 0; lia.
  - destruct (disconnectedCallback_fields p ctx' w)
      as (_ & _ & _ & _ & _ & _ & ->).
    rewrite requests_for_app. destruct (disconnect p); simpl;
      change (requests_for ctx [EvDisconnect ctx']) with 0;
      change (requests_for ctx (@nil (Event Value))) with 0; lia.
  - unfold read, getter, call_thunk, thunk_body.
    destruct (own_property w !! ctx') as [[?|]|]; simpl; try lia;
      (destruct (thunk w) as [v|]; simpl; rewrite ?requests_for_app;
       change (requests_for ctx [EvSelector v]) with 0 || idtac; lia).
Qed.

(** [requestUpdate] is called from pushes only.  Along any run from the
    decoration, the calls of one instance's [requestUpdate] are at most as
    many as the pushes of the run: connects, disconnects and reads add none,
    and a push adds at most one. *)
Theorem requests_bounded_by_pushes d p observable actions ctx :
  requests_for ctx (trace (run d p actions (from_subscribe d observable)))
  ≤ pushes actions.
Proof.
  assert (Hrun : ∀ w0, registry_wf w0 →
    requests_for ctx (trace (run d p actions w0))
    ≤ requests_for ctx (trace w0) + pushes actions).
  { induction actions as [|a actions IH]; intros w0 Hwf; [simpl; lia|].
    simpl run. specialize (IH (step d p a w0) (registry_wf_step d p a w0 Hwf)).
    pose proof (requests_step d p a w0 ctx Hwf) as Hstep.
    unfold pushes in *. simpl List.filter.
    destruct (is_push a); simpl length; lia. }
  specialize (Hrun _ (registry_wf_from_subscribe d observable)).
  rewrite from_subscribe_fields in Hrun at 2.
  change (requests_for ctx (trace (set_thunk ?t (initial (Value := Value)))))
    with 0 in Hrun.
  lia.
Qed.

(** ** Disconnecting again, or without having connected *)

Lemma call_subscription_twice ctx w :
  call_subscription ctx (call_subscription ctx w) = call_subscription ctx w.
Proof.
  unfold call_subscription.
  destruct (subscription w !! ctx) as [[old]|] eqn:Hs; simpl.
  - rewrite Hs. simpl. by rewrite without_twice.
  - by rewrite Hs.
Qed.

(** The disconnect hook run a second time changes nothing but the trace, to
    which it adds the call of the earlier hook once more; run on an instance
    whose slot is empty (one that never connected) it leaves the registry as
    it is; and it never touches the subscribers of other instances. *)
Theorem disconnect_again_changes_nothing p ctx w :
  let once := disconnectedCallback p ctx w in
  let twice := disconnectedCallback p ctx once in
  twice = call_existing (disconnect p) (EvDisconnect ctx) once
  ∧ subscribers twice = subscribers once
  ∧ (subscription w !! ctx = None → subscribers once = subscribers w)
  ∧ (∀ other, sub_ctx other ≠ ctx → registry_wf w → slots_wf w →
       other ∈ subscribers w → other ∈ subscribers once).
Proof.
  intros once twice.
  assert (Hcall : call_subscription ctx once = once).
  { unfold once, disconnectedCallback, call_existing.
    destruct (disconnect p).
    - pose proof (call_subscription_twice ctx w) as Htwice.
      unfold call_subscription in *.
      destruct (subscription w !! ctx) as [[old]|] eqn:Hs; simpl in *.
      + rewrite Hs in *. simpl in *.
        injection Htwice as Htwice. by rewrite Htwice.
      + by rewrite Hs.
    - apply call_subscription_twice. }
  assert (Htwice : twice = call_existing (disconnect p) (EvDisconnect ctx) once).
  { unfold twice. unfold disconnectedCallback at 1. by rewrite Hcall. }
  split; [done|]. split; [|split].
  - rewrite Htwice. unfold call_existing. by destruct (disconnect p).
  - intros Hs.
    destruct (disconnectedCallback_fields p ctx w) as (Hsubs & _).
    fold once in Hsubs. rewrite Hsubs. unfold call_subscription. by rewrite Hs.
  - intros other Hne Hwf Hslots Hin.
    destruct (disconnectedCallback_fields p ctx w) as (Hsubs & _).
    fold once in Hsubs. rewrite Hsubs.
    pose proof (call_subscription_hosts ctx w Hwf Hslots) as Hhosts.
    destruct Hwf as (_ & _ & Hslot). rewrite Forall_forall in Hslot.
    unfold call_subscription in *.
    destruct (subscription w !! ctx) as [[old]|] eqn:Hs; [|done].
    simpl. apply without_spec. split; [done|].
    intros Href. apply Hne.
    destruct Hslots as [_ Hinj].
    by apply (Hinj (sub_ctx other) ctx other old (Hslot other Hin) Hs).
Qed.

(** ** What the decorator call leaves behind *)

(** Whatever the form of the call, also when it throws: the source has been
    subscribed to, no selector has run, [currentValue] is still [undefined]
    and the registry is empty; of what the source delivered while subscribing
    only the last value is kept, in the thunk.  The first read then selects
    that value, and reads [undefined] when nothing was delivered. *)
Theorem decoration_defers_selection observable sel
    (call : DecoratorCall Value) ctx :
  let d := {| selector := sel; key := call_key call |} in
  let w := (watchDecorator observable sel call).1 in
  w = set_thunk (last (emitted_on_subscribe observable)) initial
  ∧ trace w = []
  ∧ (read d ctx w).1
    = from_option (maybeSelector d) undefined
        (last (emitted_on_subscribe observable))
  ∧ trace (read d ctx w).2
    = from_option (λ value, [EvSelector value]) []
        (last (emitted_on_subscribe observable)).
Proof.
  intros d w.
  assert (Hw : w = set_thunk (last (emitted_on_subscribe observable)) initial).
  { unfold w, watchDecorator. rewrite from_subscribe_fields.
    destruct call as [classElement|prototype propertyKey].
    - by destruct (is_accessor_element classElement).
    - by destruct (patch_returns prototype). }
  rewrite Hw. split; [done|]. split; [done|].
  unfold read, getter, call_thunk, thunk_body. simpl. rewrite lookup_empty.
  by destruct (last (emitted_on_subscribe observable)).
Qed.

(** ** The property descriptor of an instance *)

Lemma own_property_step d p a w ctx :
  own_property (step d p a w) !! ctx
  = if is_connect_of ctx a then Some AccessorProperty
    else own_property w !! ctx.
Proof.
  destruct a as [value|ctx'|ctx'|ctx']; cbn [step is_connect_of].
  - by destruct (next_frame d w value) as (_ & _ & _ & ->).
  - destruct (connectedCallback_fields p ctx' w)
      as (_ & _ & _ & _ & _ & -> & _).
    case_bool_decide as Hc.
    + subst. by rewrite lookup_insert_eq.
    + by rewrite lookup_insert_ne.
  - by destruct (disconnectedCallback_fields p ctx' w)
      as (_ & _ & _ & _ & _ & -> & _).
  - by destruct (read_frame d ctx' w) as (_ & _ & _ & ->).
Qed.

Lemma own_accessor_run d p actions w ctx :
  own_property w !! ctx = Some AccessorProperty →
  own_property (run d p actions w) !! ctx = Some AccessorProperty.
Proof.
  revert w. induction actions as [|a actions IH]; intros w Hown; [done|].
  simpl. apply IH. rewrite own_property_step. by destruct (is_connect_of ctx a).
Qed.

(** The connect hook repairs a shadowed property, for good.  The instances
    are the ones of [OwnProperty]: extensible, with no own property under the
    key, a configurable data property or the watcher's accessor.  Once such an
    instance has connected during a run, its own property under the key is
    the watcher's accessor and reading it runs the getter, whichever of the
    three it had before; as long as it has not connected its own property is
    left as it was, so a data property keeps shadowing the accessor of the
    prototype. *)
Theorem connect_repairs_own_property d p actions ctx w :
  let w' := run d p actions w in
  if existsb (is_connect_of ctx) actions then
    own_property w' !! ctx = Some AccessorProperty
    ∧ read d ctx w' = getter d w'
  else
    own_property w' !! ctx = own_property w !! ctx
    ∧ (∀ value, own_property w !! ctx = Some (DataProperty value) →
         read d ctx w' = (value, w')).
Proof.
  cbv zeta. revert w. induction actions as [|a actions IH]; intros w.
  - simpl. split; [done|]. intros value Hown. unfold read. by rewrite Hown.
  - simpl existsb. simpl run. destruct (is_connect_of ctx a) eqn:Ha; simpl.
    + assert (Hown : own_property (run d p actions (step d p a w)) !! ctx
                     = Some AccessorProperty).
      { apply own_accessor_run. by rewrite own_property_step, Ha. }
      split; [done|]. unfold read. by rewrite Hown.
    + specialize (IH (step d p a w)).
      rewrite own_property_step, Ha in IH. exact IH.
Qed.

(** ** Reads and the lifecycle *)

Lemma read_getter d ctx w : no_own_data w → read d ctx w = getter d w.
Proof.
  intros Hown. unfold read.
  destruct (own_property w !! ctx) as [[value|]|] eqn:Ho; [|done|done].
  by destruct (Hown ctx value).
Qed.

Lemma getter_value d w :
  (getter d w).1 = from_option (maybeSelector d) (currentValue w) (thunk w).
Proof.
  unfold getter, call_thunk, thunk_body. by destruct (thunk w).
Qed.

Lemma getter_value_step d p a w :
  is_push a = false → no_own_data w →
  (getter d (step d p a w)).1 = (getter d w).1.
Proof.
  intros Ha Hown. destruct a as [value|ctx|ctx|ctx]; cbn [step is_push] in *.
  - discriminate.
  - rewrite !getter_value.
    by destruct (connectedCallback_fields p ctx w)
      as (_ & _ & _ & -> & -> & _).
  - rewrite !getter_value.
    by destruct (disconnectedCallback_fields p ctx w)
      as (_ & _ & _ & -> & -> & _).
  - by rewrite read_getter, getter_twice.
Qed.

(** Without a push the property does not change.  From any state reached
    from the decoration, after any further connects, disconnects and reads,
    on any instances, reading the property on any instance returns what a
    read returned before them. *)
Theorem push_free_run_keeps_value d p observable before actions ctx ctx' :
  forallb (λ a, negb (is_push a)) actions = true →
  let w := run d p before (from_subscribe d observable) in
  (read d ctx (run d p actions w)).1 = (read d ctx' w).1.
Proof.
  intros Hacts w.
  assert (Hown : no_own_data w).
  { apply no_own_data_run. rewrite from_subscribe_fields.
    intros c value. simpl. by rewrite lookup_empty. }
  rewrite (read_getter d ctx' w Hown).
  rewrite read_getter by by apply no_own_data_run.
  clearbody w. revert w Hown.
  induction actions as [|a actions IH]; intros w Hown; [done|].
  simpl in Hacts. apply andb_prop in Hacts as [Ha Hacts].
  apply negb_true_iff in Ha. simpl run.
  rewrite IH; [| done | by apply no_own_data_step].
  by apply getter_value_step.
Qed.

Lemma read_precedes_push_safe d p actions (dirty : bool) w :
  no_own_data w →
  (dirty = false → thunk w = None ∨ subscribers w = []) →
  read_precedes_push dirty actions = true →
  thunk_never_stale d p actions w = true.
Proof.
  revert dirty w.
  induction actions as [|a actions IH]; intros dirty w Hown Hinv Hacts; [done|].
  assert (Hown' : no_own_data (step d p a w)) by by apply no_own_data_step.
  cbn [thunk_never_stale]. apply andb_true_intro.
  destruct a as [value|ctx|ctx|ctx]; cbn [read_precedes_push] in Hacts.
  - apply andb_prop in Hacts as [Hdirty Hacts].
    apply negb_true_iff in Hdirty. specialize (Hinv Hdirty). split.
    + unfold safe_push. destruct Hinv as [-> | ->]; [done|].
      by destruct (thunk w).
    + apply (IH false); [done | | done]. intros _. cbn [step].
      unfold next. case_decide as Hlen.
      * right. simpl. by apply nil_length_inv.
      * destruct Hinv as [Ht | Hnil]; [|by rewrite Hnil in Hlen].
        left. simpl. destruct (strict_neq _ _); [|done].
        by rewrite notify_all.
  - split; [unfold safe_push; by destruct (thunk w), (subscribers w)|].
    by apply (IH true).
  - split; [unfold safe_push; by destruct (thunk w), (subscribers w)|].
    apply (IH dirty); [done | | done]. intros Hdirty. cbn [step].
    destruct (disconnectedCallback_fields p ctx w)
      as (-> & _ & _ & _ & -> & _).
    destruct (Hinv Hdirty) as [Ht | Hnil]; [by left|]. right.
    unfold call_subscription.
    destruct (subscription w !! ctx) as [[old]|]; simpl; by rewrite Hnil.
  - split; [unfold safe_push; by destruct (thunk w), (subscribers w)|].
    apply (IH false); [done | | done]. intros _. left. cbn [step].
    rewrite read_getter by done.
    unfold getter, call_thunk, thunk_body. by destruct (thunk w) eqn:Ht.
Qed.

(** Reading after connecting keeps the accessor right.  Along a run from the
    initial state in which every push is preceded by a read made after the
    last connect before it (as a host that renders on connect does), no
    thunk goes stale: a read returns the selection of the snapshot pushed
    last, or the value that selection was found [===] to. *)
Theorem read_after_connect_keeps_accessor_fresh d p actions ctx latest :
  read_precedes_push false actions = true →
  last_pushed None actions = Some latest →
  let w := run d p actions initial in
  (read d ctx w).1 = maybeSelector d latest
  ∨ strict_eq (read d ctx w).1 (maybeSelector d latest) = true.
Proof.
  intros Hacts Hlast w.
  assert (Hown0 : no_own_data (initial (Value := Value))).
  { intros c value. simpl. by rewrite lookup_empty. }
  assert (Hsafe : thunk_never_stale d p actions initial = true).
  { apply (read_precedes_push_safe d p actions false); [done | | done].
    intros _. by left. }
  pose proof (reflects_run d p actions initial None Hsafe I) as Hinv.
  rewrite Hlast in Hinv. simpl in Hinv. fold w in Hinv.
  rewrite read_getter by by apply no_own_data_run.
  by apply reflects_getter.
Qed.

(** ** The slot *)

Lemma slot_step d p a w ctx :
  subscription (step d p a w) !! ctx
  = if is_connect_of ctx a
    then Some (Unsubscribe {| sub_ref := next_ref w; sub_ctx := ctx |})
    else subscription w !! ctx.
Proof.
  destruct a as [value|ctx'|ctx'|ctx']; cbn [step is_connect_of].
  - by destruct (next_frame d w value) as (_ & -> & _).
  - destruct (connectedCallback_fields p ctx' w) as (_ & -> & _).
    case_bool_decide as Hc.
    + subst. by rewrite lookup_insert_eq.
    + by rewrite lookup_insert_ne.
  - by destruct (disconnectedCallback_fields p ctx' w) as (_ & -> & _).
  - by destruct (read_frame d ctx' w) as (_ & -> & _).
Qed.

(** The slot is filled by the first connect and never emptied.  After a run,
    the slot of an instance that connected during the run holds the handle of
    a subscriber of that instance, through any disconnects that followed; the
    slot of an instance that did not connect is as it was. *)
Theorem slot_filled_once_connected d p actions ctx w :
  let w' := run d p actions w in
  if existsb (is_connect_of ctx) actions then
    ∃ s, subscription w' !! ctx = Some (Unsubscribe s) ∧ sub_ctx s = ctx
  else subscription w' !! ctx = subscription w !! ctx.
Proof.
  cbv zeta.
  assert (Hkeep : ∀ actions0 w0,
    (∃ s, subscription w0 !! ctx = Some (Unsubscribe s) ∧ sub_ctx s = ctx) →
    ∃ s, subscription (run d p actions0 w0) !! ctx = Some (Unsubscribe s)
         ∧ sub_ctx s = ctx).
  { induction actions0 as [|a actions0 IH]; intros w0 Hslot; [done|].
    simpl. apply IH. rewrite slot_step.
    destruct (is_connect_of ctx a); [by eexists | done]. }
  revert w. induction actions as [|a actions IH]; intros w; [done|].
  simpl existsb. simpl run. destruct (is_connect_of ctx a) eqn:Ha; simpl.
  - apply Hkeep. rewrite slot_step, Ha. by eexists.
  - specialize (IH (step d p a w)). rewrite slot_step, Ha in IH. exact IH.
Qed.

End Lifecycle.

(** * The wiring of [src/index.ts] *)

Section Index.

Context `{JsValues Value}.

Implicit Types (w : World Value) (d : Decoration Value) (p : Prototype).
Implicit Types (value : Value) (subscriber : Subscriber) (ctx : nat).
Implicit Types (actions : list (Action Value)) (a : Action Value).

(** The connect hook of [src/index.ts], field by field. *)
Lemma index_connectedCallback_fields d p ctx w :
  let subscriber := {| sub_ref := next_ref w; sub_ctx := ctx |} in
  let w' := index_connectedCallback d p ctx w in
  subscribers w' = subscribers (call_subscription ctx w) ++ [subscriber]
  ∧ subscription w' = <[ctx := Unsubscribe subscriber]> (subscription w)
  ∧ next_ref w' = S (next_ref w)
  ∧ currentValue w' = currentValue (call_thunk d w)
  ∧ thunk w' = None
  ∧ own_property w' = own_property w
  ∧ trace w' =
      trace w ++ (if connect p then [EvConnect ctx] else [])
      ++ from_option (λ value, [EvSelector value]) [] (thunk w).
Proof.
  cbv zeta.
  unfold index_connectedCallback, call_existing, call_thunk, thunk_body,
    call_subscription, subscribe.
  destruct (connect p); simpl;
    destruct (thunk w) as [value|] eqn:Ht; simpl; rewrite ?Ht;
    destruct (subscription w !! ctx) as [[?]|]; simpl;
    rewrite ?app_nil_r, <- ?app_assoc; repeat split; auto.
Qed.

Lemma index_read_pure ctx w : (index_read ctx w).2 = w.
Proof.
  unfold index_read, index_getter.
  by destruct (own_property w !! ctx) as [[?|]|].
Qed.

(** ** The same registry as [lib/createWatcher.ts] *)

Lemma call_subscription_agree ctx w w' :
  subscribers w' = subscribers w → subscription w' = subscription w →
  subscribers (call_subscription ctx w')
  = subscribers (call_subscription ctx w).
Proof.
  intros Hsubs Hslots. unfold call_subscription. rewrite Hslots.
  destruct (subscription w !! ctx) as [[old]|]; simpl; by rewrite Hsubs.
Qed.

Lemma index_step_agree d p a wi w :
  subscribers wi = subscribers w ∧ subscription wi = subscription w
  ∧ next_ref wi = next_ref w →
  subscribers (index_step d p a wi) = subscribers (step d p a w)
  ∧ subscription (index_step d p a wi) = subscription (step d p a w)
  ∧ next_ref (index_step d p a wi) = next_ref (step d p a w).
Proof.
  intros (Hsubs & Hslots & Hn).
  destruct a as [value|ctx|ctx|ctx]; cbn [step index_step].
  - destruct (next_frame d wi value) as (-> & -> & -> & _).
    by destruct (next_frame d w value) as (-> & -> & -> & _).
  - destruct (index_connectedCallback_fields d p ctx wi)
      as (-> & -> & -> & _).
    destruct (connectedCallback_fields p ctx w) as (-> & -> & -> & _).
    by rewrite (call_subscription_agree ctx w wi), Hslots, Hn.
  - destruct (disconnectedCallback_fields p ctx wi) as (-> & -> & -> & _).
    destruct (disconnectedCallback_fields p ctx w) as (-> & -> & -> & _).
    by rewrite (call_subscription_agree ctx w wi).
  - rewrite index_read_pure.
    by destruct (read_frame d ctx w) as (-> & -> & -> & _).
Qed.

Lemma index_run_agree d p actions wi w :
  subscribers wi = subscribers w ∧ subscription wi = subscription w
  ∧ next_ref wi = next_ref w →
  subscribers (index_run d p actions wi) = subscribers (run d p actions w)
  ∧ subscription (index_run d p actions wi)
    = subscription (run d p actions w)
  ∧ next_ref (index_run d p actions wi) = next_ref (run d p actions w).
Proof.
  revert wi w. induction actions as [|a actions IH]; intros wi w Hagree.
  - done.
  - simpl. by apply IH, index_step_agree.
Qed.

(** The two copies of the module do the same to the registry.  Run over the
    same pushes and lifecycle calls from the same state, [src/index.ts] and
    [lib/createWatcher.ts] end with the same subscribers in the same order,
    the same handles in the slots and the same next identity; from the
    initial state the registry of [src/index.ts] too lists the connected
    instances in the order of their latest connects. *)
Theorem index_keeps_the_same_registry d p actions w :
  subscribers (index_run d p actions w) = subscribers (run d p actions w)
  ∧ subscription (index_run d p actions w) = subscription (run d p actions w)
  ∧ next_ref (index_run d p actions w) = next_ref (run d p actions w)
  ∧ sub_ctx <$> subscribers (index_run d p actions initial)
    = connected_hosts actions.
Proof.
  destruct (index_run_agree d p actions w w) as (Hs & Hh & Hn); [done|].
  split; [done|]. split; [done|]. split; [done|].
  destruct (index_run_agree d p actions initial initial) as (-> & _); [done|].
  rewrite hosts_of_run; [done | apply registry_wf_initial | apply slots_wf_initial].
Qed.

(** ** The property descriptor is never repaired there *)

Lemma index_own_property_step d p a w :
  own_property (index_step d p a w) = own_property w.
Proof.
  destruct a as [value|ctx|ctx|ctx]; cbn [index_step].
  - by destruct (next_frame d w value) as (_ & _ & _ & ->).
  - by destruct (index_connectedCallback_fields d p ctx w)
      as (_ & _ & _ & _ & _ & -> & _).
  - by destruct (disconnectedCallback_fields p ctx w)
      as (_ & _ & _ & _ & _ & -> & _).
  - by rewrite index_read_pure.
Qed.

Lemma index_own_property_run d p actions w :
  own_property (index_run d p actions w) = own_property w.
Proof.
  revert w. induction actions as [|a actions IH]; intros w; [done|].
  simpl. by rewrite IH, index_own_property_step.
Qed.

(** In [src/index.ts] nothing defines a property on an instance: whatever the
    run, the own properties are the ones from before, so a data property an
    instance has under the key shadows the accessor for ever, connects
    included, and reading it returns that data value and changes nothing. *)
Theorem index_never_repairs d p actions ctx w :
  let w' := index_run d p actions w in
  own_property w' = own_property w
  ∧ (∀ value, own_property w !! ctx = Some (DataProperty value) →
       index_read ctx w' = (value, w')).
Proof.
  intros w'.
  assert (Hown : own_property w' = own_property w).
  { apply index_own_property_run. }
  split; [done|]. intros value Hdata.
  unfold index_read. by rewrite Hown, Hdata.
Qed.

(** ** The thunk and the registry *)

Lemma index_settled_step d p a w o :
  index_settled d o w →
  index_settled d (last_pushed o [a]) (index_step d p a w).
Proof.
  intros Hinv.
  destruct a as [value|ctx|ctx|ctx]; cbn [index_step last_pushed foldl].
  - unfold index_settled in *. unfold next. case_decide as Hlen.
    + simpl. split; [|done]. by apply nil_length_inv.
    + destruct (thunk w) as [pendingValue|] eqn:Ht.
      { destruct Hinv as [Hnil _]. by rewrite Hnil in Hlen. }
      simpl. unfold strict_neq.
      destruct (strict_eq (currentValue w) (maybeSelector d value)) eqn:He;
        simpl.
      * rewrite Ht. auto.
      * rewrite notify_all. simpl. rewrite Ht. auto.
  - unfold index_settled in *.
    destruct (index_connectedCallback_fields d p ctx w)
      as (_ & _ & _ & -> & -> & _).
    unfold call_thunk, thunk_body.
    destruct (thunk w) as [pendingValue|]; simpl.
    + destruct Hinv as [_ ->]. simpl. auto.
    + done.
  - unfold index_settled in *.
    destruct (disconnectedCallback_fields p ctx w)
      as (-> & _ & _ & -> & -> & _).
    destruct (thunk w) as [pendingValue|]; [|done].
    destruct Hinv as [Hnil ->]. split; [|done].
    unfold call_subscription.
    destruct (subscription w !! ctx) as [[old]|]; simpl; by rewrite Hnil.
  - by rewrite index_read_pure.
Qed.

Lemma index_settled_run d p actions w o :
  index_settled d o w →
  index_settled d (last_pushed o actions) (index_run d p actions w).
Proof.
  revert w o. induction actions as [|a actions IH]; intros w o Hinv; [done|].
  change (last_pushed o (a :: actions))
    with (last_pushed (last_pushed o [a]) actions).
  simpl index_run. by apply IH, index_settled_step.
Qed.

(** In [src/index.ts] no thunk outlives a connect.  In every state reached
    from the initial one, a thunk is pending only while no instance is
    connected; and while an instance is connected, reading the property
    returns the selection of the snapshot pushed last, or the value that
    selection was found [===] to. *)
Theorem index_thunk_only_when_idle d p actions ctx :
  let w := index_run d p actions initial in
  (thunk w = None ∨ connected_hosts actions = [])
  ∧ (∀ latest,
       last_pushed None actions = Some latest →
       connected_hosts actions ≠ [] →
       (index_read ctx w).1 = maybeSelector d latest
       ∨ strict_eq (index_read ctx w).1 (maybeSelector d latest) = true).
Proof.
  intros w.
  pose proof (index_settled_run d p actions initial None I) as Hinv.
  fold w in Hinv.
  destruct (index_run_agree d p actions initial initial) as (Hs & _); [done|].
  pose proof (hosts_of_run d p actions initial registry_wf_initial
                slots_wf_initial) as Hhosts.
  rewrite <- Hs in Hhosts. fold w in Hhosts.
  change (foldl hosts_step (sub_ctx <$> subscribers initial) actions)
    with (connected_hosts actions) in Hhosts.
  unfold index_settled in Hinv. split.
  - destruct (thunk w); [|by left]. right.
    destruct Hinv as [Hnil _]. by rewrite <- Hhosts, Hnil.
  - intros latest Hlast Hconnected.
    assert (Hown : own_property w = ∅).
    { unfold w. by rewrite index_own_property_run. }
    unfold index_read, index_getter. rewrite Hown, lookup_empty. simpl.
    destruct (thunk w).
    + destruct Hinv as [Hnil _]. destruct Hconnected.
      by rewrite <- Hhosts, Hnil.
    + by rewrite Hlast in Hinv.
Qed.

End Index.

(** * The tests' values: instances and runs *)

(** Two pushes into the initial state: the thunk holds the second. *)
Lemma push_without_subscriber_defers_witness :
  let w' :=
    foldl (λ w v, next test_decoration v w) initial [Object 1; Object 2] in
  thunk w' = Some (Object 2)
  ∧ currentValue w' = Undefined
  ∧ trace (call_thunk test_decoration w') = [EvSelector (Object 2)].
Proof.
  destruct (push_without_subscriber_defers test_decoration initial
              [Object 1] (Object 2) eq_refl)
    as (_ & _ & Hc & Ht & Htr & _).
  split; [exact Ht|]. split; [exact Hc | exact Htr].
Defined.

(** One connected instance: the first push of a snapshot notifies it with
    [undefined], the same snapshot pushed again notifies nobody. *)
Lemma push_notifies_iff_changed_witness :
  let w := connectedCallback test_prototype 0 initial in
  let w' := next test_decoration (Object 1) w in
  trace w' =
    [EvConnect 0; EvSelector (Object 1); EvRequestUpdate 0 "complete" Undefined]
  ∧ next test_decoration (Object 1) w' = emit (EvSelector (Object 1)) w'.
Proof.
  cbv zeta.
  assert (Hne : subscribers (connectedCallback (Value := TestValue)
                               test_prototype 0 initial) ≠ []).
  { vm_compute. discriminate. }
  assert (Hne' : subscribers (next test_decoration (Object 1)
                    (connectedCallback test_prototype 0 initial)) ≠ []).
  { vm_compute. discriminate. }
  split.
  - exact (proj1 (proj2 (push_notifies_iff_changed test_decoration _
                           (Object 1) Hne))).
  - exact (push_notifies_iff_changed test_decoration _ (Object 1) Hne').
Defined.

(** Connect, then disconnect: the registry is empty again and both earlier
    hooks were called. *)
Lemma disconnect_calls_handle_keeps_slot_witness :
  let w := connectedCallback (Value := TestValue) test_prototype 0 initial in
  let w' := disconnectedCallback test_prototype 0 w in
  subscribers w = [{| sub_ref := 0; sub_ctx := 0 |}]
  ∧ subscribers w' = []
  ∧ trace w' = [EvConnect 0; EvDisconnect 0].
Proof.
  cbv zeta. split; [reflexivity|].
  destruct (disconnect_calls_handle_keeps_slot test_prototype 0
              (connectedCallback (Value := TestValue) test_prototype 0 initial)
              (Unsubscribe {| sub_ref := 0; sub_ctx := 0 |}) eq_refl)
    as (_ & Hs & Ht & _).
  split; [exact Hs | exact Ht].
Defined.

(** The tests' [@watch() public entireStore], read after construction. *)
Lemma store_seeds_property_witness :
  let d := {| selector := None; key := "entireStore" |} in
  let w0 := (watchDecorator (StoreLike (Object 1)) None
               (Legacy plain_prototype "entireStore")).1 in
  (read d 0 (run d test_prototype [Connect 0] w0)).1 = Object 1.
Proof.
  exact (store_seeds_property test_prototype (Object 1)
           (Legacy plain_prototype "entireStore") [Connect 0] 0 eq_refl).
Defined.

(** Connect, disconnect, push: no [requestUpdate] on the instance. *)
Lemma disconnect_silences_witness :
  let w := connectedCallback (Value := TestValue) test_prototype 0 initial in
  let w' := disconnectedCallback test_prototype 0 w in
  requests_for 0
    (trace (run test_decoration test_prototype [Push (Object 2)] w')) = 0.
Proof.
  cbv zeta.
  rewrite (disconnect_silences test_decoration test_prototype 0
             [Push (Object 2)] _
             (registry_wf_connected test_prototype 0 _ registry_wf_initial)
             eq_refl).
  reflexivity.
Defined.

(** With a read between the connect and the second push, the accessor
    returns the second snapshot. *)
Lemma accessor_reflects_latest_witness :
  let w :=
    run test_decoration test_prototype emit_connect_read_emit initial in
  (read test_decoration 0 w).1 = Object 2.
Proof.
  destruct (accessor_reflects_latest test_decoration test_prototype
              emit_connect_read_emit 0 (Object 2) eq_refl eq_refl)
    as [Heq | Heq].
  - exact Heq.
  - reflexivity.
Defined.

(** C3, against the claim as stated: decorating the method [render] throws
    nothing, the call returns the element descriptor; and decorating the data
    property [complete] in the legacy form throws a [TypeError] on a prototype
    that an earlier decoration of the same member has patched. *)
Lemma method_decorated_redecoration_throws :
  (watchDecorator (StreamLike []) None (Proposal method_element)).2
  = ReturnElement "render" None KindField PlacementOwn
  ∧ (watchDecorator (StreamLike []) None
       (Legacy plain_prototype "complete")).2
    = ReturnPatched "complete"
  ∧ (watchDecorator (StreamLike []) None
       (Legacy (patched 0 plain_prototype) "complete")).2
    = ThrowTypeError.
Proof. repeat split. Qed.

(** C9, against the claim as stated: the slot of an instance that connected
    once holds a handle, and holds the same handle after the disconnect hook
    has run. *)
Lemma slot_holds_handle_after_disconnect :
  let w := connectedCallback (Value := TestValue) test_prototype 0 initial in
  let handle := Unsubscribe {| sub_ref := 0; sub_ctx := 0 |} in
  subscription w !! 0 = Some handle
  ∧ subscription (disconnectedCallback test_prototype 0 w) !! 0 = Some handle.
Proof. split; reflexivity. Qed.

(** C1, at the failing input.  The thunk recorded for the first snapshot
    outlives the connect; the second snapshot is selected at once and the
    subscriber is told, but the next read runs the old thunk, which puts the
    selection of the first snapshot back and returns it. *)
Theorem accessor_returns_stale_snapshot :
  let w := run test_decoration test_prototype emit_connect_emit initial in
  trace w =
    [EvConnect 0; EvSelector (Object 2); EvRequestUpdate 0 "complete" Undefined]
  ∧ currentValue w = Object 2
  ∧ thunk w = Some (Object 1)
  ∧ maybeSelector test_decoration (Object 2) = Object 2
  ∧ (read test_decoration 0 w).1 = Object 1
  ∧ currentValue (read test_decoration 0 w).2 = Object 1.
Proof.
  cbv zeta. unfold emit_connect_emit.
  repeat split; vm_compute; reflexivity.
Qed.

(** The accessor of [src/index.ts] on a snapshot pushed while nobody is
    connected: the thunk is recorded, only a connect would run it, and the
    read returns the value from before. *)
Lemma index_accessor_ignores_thunk :
  let w :=
    index_run test_decoration test_prototype emit_when_disconnected initial in
  thunk w = Some (Object 1)
  ∧ maybeSelector test_decoration (Object 1) = Object 1
  ∧ (index_read 0 w).1 = Undefined.
Proof.
  cbv zeta. unfold emit_when_disconnected.
  repeat split; vm_compute; reflexivity.
Qed.

(** C5, at the failing input.  After instance 0 has disconnected, the push of
    the second snapshot calls [requestUpdate] on instance 1 only; reading the
    property on instance 0 then returns the selection of the first snapshot. *)
Theorem disconnected_instance_reads_stale_snapshot :
  let w := run test_decoration test_prototype emit_after_disconnect initial in
  trace w =
    [EvConnect 0; EvConnect 1; EvDisconnect 0; EvSelector (Object 2);
     EvRequestUpdate 1 "complete" Undefined]
  ∧ requests_for 0 (trace w) = 0
  ∧ maybeSelector test_decoration (Object 2) = Object 2
  ∧ (read test_decoration 0 w).1 = Object 1.
Proof.
  cbv zeta. unfold emit_after_disconnect.
  repeat split; vm_compute; reflexivity.
Qed.

(** Over a store: connect, read, one dispatch; the lifecycle calls and reads
    that follow leave the value read at the second snapshot. *)
Lemma push_free_run_keeps_value_witness :
  let w :=
    run test_decoration test_prototype
      [Connect 0; Read 0; Push (Object 2)]
      (from_subscribe test_decoration (StoreLike (Object 1))) in
  (read test_decoration 0
     (run test_decoration test_prototype
        [Disconnect 0; Connect 1; Read 1] w)).1 = Object 2.
Proof.
  cbv zeta.
  rewrite (push_free_run_keeps_value test_decoration test_prototype
             (StoreLike (Object 1)) [Connect 0; Read 0; Push (Object 2)]
             [Disconnect 0; Connect 1; Read 1] 0 1 eq_refl).
  reflexivity.
Defined.

(** With the read before the second emission, the disconnected instance
    reads the second snapshot. *)
Lemma read_after_connect_keeps_accessor_fresh_witness :
  let w :=
    run test_decoration test_prototype emit_read_emit_disconnect initial in
  (read test_decoration 0 w).1 = Object 2.
Proof.
  destruct (read_after_connect_keeps_accessor_fresh test_decoration
              test_prototype emit_read_emit_disconnect 0 (Object 2)
              eq_refl eq_refl)
    as [Heq | Heq].
  - exact Heq.
  - reflexivity.
Defined.
